(** * EVM-to-AVM code generation: dispatch trees and peephole passes

    A shallow embedding of [arbitrum/evm/compile.py]: the two peephole passes
    [remove_metadata] and [replace_self_balance], the dispatch-tree generator
    [make_bst_lookup], the per-instruction translator [run_op] and the list
    building done by [generate_contract_code] and [generate_evm_code],
    together with a small interpreter for the emitted target code. *)

From Stdlib Require Import ZArith String Ascii List Sorted Permutation Lia Arith.
From Stdlib Require Import DecimalString HexadecimalString.
From Stdlib Require DecimalPos DecimalZ.
From stdpp Require Import gmap strings list fin_maps sorting.
From Equations Require Import Equations.
Import ListNotations.

Set Warnings "-register-all".

Local Open Scope string_scope.
Local Open Scope Z_scope.
Local Open Scope list_scope.

(** ** Python outcomes: a value or a raised exception *)

Inductive exn :=
| IndexError
| ValueError
| Exception (msg : string).

Inductive outcome (A : Type) :=
| Returned (a : A)
| Raised (e : exn).
Arguments Returned {A} a.
Arguments Raised {A} e.

(** Sequencing: the first exception raised ends the computation. *)
#[global] Instance outcome_ret : MRet outcome := fun A a => Returned a.
#[global] Instance outcome_bind : MBind outcome := fun A B f m =>
  match m with
  | Returned a => f a
  | Raised e => Raised e
  end.

(** [l[i]] for a non-negative index: Python raises [IndexError] past the end. *)
Definition getitem {A} (l : list A) (i : nat) : outcome A :=
  match l !! i with
  | Some a => Returned a
  | None => Raised IndexError
  end.

(** ** Target-machine values and emitted code *)

(** Values the generated code handles: integers, code labels ([AVMLabel]) and
    tuples; [tnewn(0)] builds the empty tuple. *)
Inductive value :=
| VInt (n : Z)
| VLabel (name : string)
| VTuple (items : list value).

Definition sentinel : value := VTuple [].

Fixpoint value_eqb (a b : value) : bool :=
  match a, b with
  | VInt x, VInt y => Z.eqb x y
  | VLabel x, VLabel y => String.eqb x y
  | VTuple xs, VTuple ys =>
      (fix all2 (xs ys : list value) : bool :=
         match xs, ys with
         | [], [] => true
         | x :: xs', y :: ys' => value_eqb x y && all2 xs' ys'
         | _, _ => false
         end) xs ys
  | _, _ => false
  end.

(** One emitted operation.  Every [vm.<op>()] call of the source appends the
    operation of the same name; [vm.ifelse(t, e)] appends a structured branch
    holding the code the two callbacks emit; a call into [os], [execution] or
    [stack_manip] is recorded by name with its integer arguments. *)
Inductive stmt :=
| OpPush (v : value)
| OpPop
| OpDup0
| OpDup1
| OpDup2
| OpSwap1
| OpSwap2
| OpTnewn (n : nat)
| OpEq
| OpLt
| OpGt
| OpIszero
| OpAdd
| OpMul
| OpSub
| OpDiv
| OpMod
| OpExp
| OpBitwiseAnd
| OpBitwiseOr
| OpBitwiseNot
| OpHash
| OpHalt
| OpJump
| OpCjump
| OpSetLabel (l : string)
| OpIfElse (t e : list stmt)
| OpExtern (callee : string) (args : list Z).

Definition code := list stmt.

(** ** The code-emission context

    A generator is a Python callable taking the [vm]; the only state of the
    [vm] it touches is the code emitted so far, which only grows.  It is
    modelled by the block it appends, or the exception it raises. *)
Definition gen := outcome code.

Definition emit (o : stmt) : gen := Returned [o].

Definition gseq (g1 g2 : gen) : gen :=
  c1 ← g1; c2 ← g2; Returned (c1 ++ c2).

Notation "g1 ;;; g2" := (gseq g1 g2) (at level 90, right associativity).

Definition vm_push (v : value) : gen := emit (OpPush v).
Definition vm_pop : gen := emit OpPop.
Definition vm_dup0 : gen := emit OpDup0.
Definition vm_dup1 : gen := emit OpDup1.
Definition vm_dup2 : gen := emit OpDup2.
Definition vm_swap1 : gen := emit OpSwap1.
Definition vm_swap2 : gen := emit OpSwap2.
Definition vm_tnewn (n : nat) : gen := emit (OpTnewn n).
Definition vm_eq : gen := emit OpEq.
Definition vm_lt : gen := emit OpLt.
Definition vm_gt : gen := emit OpGt.
Definition vm_halt : gen := emit OpHalt.
Definition vm_jump : gen := emit OpJump.
Definition vm_cjump : gen := emit OpCjump.
Definition vm_set_label (l : string) : gen := emit (OpSetLabel l).
Definition vm_extern (callee : string) (args : list Z) : gen :=
  emit (OpExtern callee args).

(** [vm.ifelse(t, e)]: both callbacks are run on the spot. *)
Definition vm_ifelse (t e : gen) : gen :=
  ct ← t; ce ← e; Returned [OpIfElse ct ce].

(** [vm.ifelse(t)]: the one-armed form has an empty else branch. *)
Definition vm_if (t : gen) : gen := vm_ifelse t (Returned []).

(** ** Running emitted code *)

(** How a run of a block ends: it falls through with a stack, halts, leaves
    through a jump to a label, faults on an ill-typed or too short stack, or
    reaches an operation this development gives no meaning to. *)
Inductive status :=
| Running (s : list value)
| Halted (s : list value)
| Jumped (target : string) (s : list value)
| Errored
| Unmodelled.

Definition bool_value (b : bool) : value := VInt (if b then 1 else 0).

(** Modelled from the spec: the primitive operations of the target machine
    ([arbitrum/vm.py] is not part of the sources).  The data stack is a list
    with its top first.  Binary operations pop A (the top) then B; [lt] pushes
    A < B and [gt] pushes A > B, as the stack comments of [impl_n] record
    ("index < pivot, index" after [push(pivot); dup1; lt]); [dup0] copies the
    top and [dup1] the second item to the top; [eq] compares any two values;
    [ifelse] pops an integer and takes the first branch when it is non-zero;
    [jump] pops a label; [cjump] pops a label and then an integer and jumps
    when the integer is non-zero.  Integers are compared as numbers: the
    machine's words are unsigned 256-bit, and program counters, contract ids
    and instruction counts lie in that range.  Arithmetic, hashing and the
    calls into the runtime end the run as [Unmodelled]. *)
Fixpoint exec_stmt (o : stmt) (s : list value) {struct o} : status :=
  let fix exec_block (c : list stmt) (s : list value) {struct c} : status :=
    match c with
    | [] => Running s
    | o' :: c' =>
        match exec_stmt o' s with
        | Running s' => exec_block c' s'
        | r => r
        end
    end in
  match o, s with
  | OpPush v, _ => Running (v :: s)
  | OpPop, _ :: s' => Running s'
  | OpDup0, a :: s' => Running (a :: a :: s')
  | OpDup1, a :: b :: s' => Running (b :: a :: b :: s')
  | OpDup2, a :: b :: c :: s' => Running (c :: a :: b :: c :: s')
  | OpSwap1, a :: b :: s' => Running (b :: a :: s')
  | OpSwap2, a :: b :: c :: s' => Running (c :: b :: a :: s')
  | OpTnewn n, _ => Running (VTuple (repeat (VTuple []) n) :: s)
  | OpEq, a :: b :: s' => Running (bool_value (value_eqb a b) :: s')
  | OpLt, VInt a :: VInt b :: s' => Running (bool_value (a <? b) :: s')
  | OpGt, VInt a :: VInt b :: s' => Running (bool_value (a >? b) :: s')
  | OpIszero, VInt a :: s' => Running (bool_value (a =? 0) :: s')
  | OpHalt, _ => Halted s
  | OpJump, VLabel l :: s' => Jumped l s'
  | OpCjump, VLabel l :: VInt c :: s' =>
      if c =? 0 then Running s' else Jumped l s'
  | OpSetLabel _, _ => Running s
  | OpIfElse t e, VInt c :: s' =>
      if c =? 0 then exec_block e s' else exec_block t s'
  | (OpAdd | OpMul | OpSub | OpDiv | OpMod | OpExp | OpBitwiseAnd
     | OpBitwiseOr | OpBitwiseNot | OpHash | OpExtern _ _), _ => Unmodelled
  | _, _ => Errored
  end.

Fixpoint exec (c : code) (s : list value) : status :=
  match c with
  | [] => Running s
  | o :: c' =>
      match exec_stmt o s with
      | Running s' => exec c' s'
      | r => r
      end
  end.

(** ** Decoded source instructions

    What [pyevmasm.disassemble_all] yields, with the attributes this module
    reads: the mnemonic, the opcode byte, the operand (present for push
    operations only) and the program counter. *)
Record Instruction := {
  name : string;
  opcode : Z;
  operand : option Z;
  pc : Z
}.

(** An element of a normalised instruction list: a decoded instruction, or the
    [AVMOp("SELF_BALANCE")] object the fusion pass puts in. *)
Inductive insn :=
| EvmInsn (i : Instruction)
| SelfBalance.

(** ** Peephole pass: [remove_metadata] *)

(** The test of the loop body at index [i].  Every index the loop visits has
    [i + 1 <= len(instrs) - 1], so both cells exist; a missing cell counts as
    no match. *)
Definition marker_at (instrs : list Instruction) (i : nat) : bool :=
  match instrs !! i, instrs !! (i + 1)%nat with
  | Some first, Some second =>
      (opcode first =? 0xa1) && (opcode second =? 0x65)
  | _, _ => false
  end.

(** [for i in range(n - 1, -1, -1)]: the indices [n - 1] down to [0]. *)
Fixpoint remove_metadata_from (instrs : list Instruction) (n : nat)
  : list Instruction :=
  match n with
  | O => instrs
  | S i =>
      if marker_at instrs i then take i instrs
      else remove_metadata_from instrs i
  end.

Definition remove_metadata (instrs : list Instruction) : list Instruction :=
  remove_metadata_from instrs (length instrs - 1).

(** ** Peephole pass: [replace_self_balance] *)

Definition address_mask : Z := 2 ^ 160 - 1.

(** The guard of the loop body, with the short-circuit order of [and]: a cell
    is read only when every test before it held. *)
Definition self_balance_at (instrs : list Instruction) (i : nat)
  : outcome bool :=
  a ← getitem instrs i;
  if negb (String.eqb (name a) "ADDRESS") then Returned false else
  b ← getitem instrs (i + 1)%nat;
  if negb (String.eqb (name b) "PUSH20") then Returned false else
  b' ← getitem instrs (i + 1)%nat;
  if negb (bool_decide (operand b' = Some address_mask)) then Returned false else
  c ← getitem instrs (i + 2)%nat;
  if negb (String.eqb (name c) "AND") then Returned false else
  d ← getitem instrs (i + 3)%nat;
  Returned (String.eqb (name d) "BALANCE").

(** The [while i < len(instrs)] loop, with [out] the list built so far. *)
Equations? replace_self_balance_loop
  (instrs : list Instruction) (i : nat) (out : list insn)
  : outcome (list insn) by wf (length instrs - i)%nat lt :=
replace_self_balance_loop instrs i out with lt_dec i (length instrs) := {
  | left Hlt =>
      fused ← self_balance_at instrs i;
      if (fused : bool) then
        replace_self_balance_loop instrs (i + 4) (out ++ [SelfBalance])
      else
        a ← getitem instrs i;
        replace_self_balance_loop instrs (i + 1) (out ++ [EvmInsn a])
  | right Hge => Returned out }.
Proof. all: lia. Qed.

Definition replace_self_balance (instrs : list Instruction)
  : outcome (list insn) :=
  replace_self_balance_loop instrs 0 [].

(** ** Python helpers: [sorted], [str] and [int] *)

(** [sorted(l, key=key)]: a stable sort; insertion from the right places each
    element before the elements of the sorted tail that have the same key. *)
Fixpoint insert_by {A} (key : A → Z) (x : A) (l : list A) : list A :=
  match l with
  | [] => [x]
  | y :: l' =>
      if key x <=? key y then x :: l else y :: insert_by key x l'
  end.

Fixpoint sorted_by {A} (key : A → Z) (l : list A) : list A :=
  match l with
  | [] => []
  | x :: l' => insert_by key x (sorted_by key l')
  end.

(** [str(n)] for an integer. *)
Definition str_int (n : Z) : string :=
  DecimalString.NilZero.string_of_int (Z.to_int n).

Definition digit_value (c : ascii) : option Z :=
  let n := Z.of_nat (nat_of_ascii c) in
  if (48 <=? n) && (n <=? 57) then Some (n - 48) else None.

Fixpoint parse_digits (s : string) (acc : Z) : option Z :=
  match s with
  | EmptyString => Some acc
  | String c s' =>
      match digit_value c with
      | Some d => parse_digits s' (10 * acc + d)
      | None => None
      end
  end.

(** [int(s)] on the digit suffix of a mnemonic: a non-empty string of decimal
    digits converts, anything else raises [ValueError]. *)
Definition py_int (s : string) : outcome Z :=
  match s with
  | EmptyString => Raised ValueError
  | _ =>
      match parse_digits s 0 with
      | Some n => Returned n
      | None => Raised ValueError
      end
  end.

(** [s[:n]] and [s[n:]]. *)
Definition str_prefix (n : nat) (s : string) : string := substring 0 n s.
Definition str_suffix (n : nat) (s : string) : string :=
  substring n (String.length s) s.

(** [str(instr)] of a decoded instruction, as the disassembler library
    [pyevmasm] defines it: the mnemonic followed, for an instruction that has
    one, by its operand in hexadecimal.  The program counter is not part of
    it, which is why the diagnostic tag of [generate_contract_code] writes
    [insn.pc] next to [insn]. *)
Definition str_instr (i : Instruction) : string :=
  match operand i with
  | Some v =>
      name i +:+ " 0x" +:+
      HexadecimalString.NilZero.string_of_uint (N.to_hex_uint (Z.to_N v))
  | None => name i
  end.

(** ** Labels *)

Definition contract_entry_label (contract : Z) : string :=
  "contract_entry_" +:+ str_int contract.

Definition jumpdest_label (contract_id pc_ : Z) : string :=
  "jumpdest_" +:+ str_int contract_id +:+ "_" +:+ str_int pc_.

(** ** Dispatch-tree generator: [make_bst_lookup] *)

Abbreviation entry := (Z * value)%type.

Definition handle_bad_jump : gen := vm_tnewn 0.

(** [impl_1] and [impl_2] read [items[0]] and [items[1]] when they run, from
    the list object as it is then ([live]). *)
Definition impl_1 (live : list entry) : gen :=
  (e0 ← getitem live 0; vm_push (VInt (fst e0))) ;;;
  vm_eq ;;;
  vm_ifelse
    (e0 ← getitem live 0; vm_push (snd e0))
    handle_bad_jump.

Definition impl_2 (live : list entry) : gen :=
  vm_dup0 ;;;
  (e0 ← getitem live 0; vm_push (VInt (fst e0))) ;;;
  vm_eq ;;;
  vm_ifelse
    (vm_pop ;;;
     (e0 ← getitem live 0; vm_push (snd e0)))
    ((e1 ← getitem live 1; vm_push (VInt (fst e1))) ;;;
     vm_eq ;;;
     vm_ifelse
       (e1 ← getitem live 1; vm_push (snd e1))
       handle_bad_jump).

(** [make_bst_lookup items live]: [items] is the list as it is when
    [make_bst_lookup] is called; the arity test, [mid], the slices [left] and
    [right] and [pivot] are computed then.  [live] is the same list object when
    the returned generator runs: [items[mid][1]], and every cell [impl_2] and
    [impl_1] use, is read only then.  The slices are fresh lists nobody else
    holds, so the recursive generators run on them as they were cut. *)
Equations? make_bst_lookup (items live : list entry) : gen
  by wf (length items) lt :=
make_bst_lookup items live with le_lt_dec 3 (length items) := {
  | left Hge =>
      let mid := (length items / 2)%nat in
      let left_ := firstn mid items in
      let right_ := skipn (mid + 1) items in
      p ← getitem items mid;
      let pivot := fst p in
      vm_push (VInt pivot) ;;;
      vm_dup1 ;;;
      vm_lt ;;;
      vm_ifelse
        (make_bst_lookup left_ left_)
        (vm_push (VInt pivot) ;;;
         vm_dup1 ;;;
         vm_gt ;;;
         vm_ifelse
           (make_bst_lookup right_ right_)
           (vm_pop ;;;
            (m ← getitem live mid; vm_push (snd m))))
  | right Hlt =>
      if (length items =? 2)%nat then impl_2 live
      else if (length items =? 1)%nat then impl_1 live
      else handle_bad_jump }.
Proof.
  all: subst left_ right_ mid;
    change (Nat.divmod (length items) 1 0 1).1 with (length items / 2)%nat;
    pose proof (Nat.div_lt (length items) 2);
    rewrite ?length_take, ?length_drop; lia.
Qed.


(** The target a key is associated with: the first entry carrying it. *)
Fixpoint assoc (key : Z) (items : list entry) : option value :=
  match items with
  | [] => None
  | (k, t) :: rest => if k =? key then Some t else assoc key rest
  end.

(** What a lookup of [key] in the table [items] is to return. *)
Definition lookup_result (key : Z) (items : list entry) : value :=
  default sentinel (assoc key items).

(** ** Instruction translator: [run_op] *)

Definition vm_iszero : gen := emit OpIszero.
Definition vm_add : gen := emit OpAdd.
Definition vm_mul : gen := emit OpMul.
Definition vm_sub : gen := emit OpSub.
Definition vm_div : gen := emit OpDiv.
Definition vm_mod : gen := emit OpMod.
Definition vm_exp : gen := emit OpExp.
Definition vm_bitwise_and : gen := emit OpBitwiseAnd.
Definition vm_bitwise_or : gen := emit OpBitwiseOr.
Definition vm_bitwise_not : gen := emit OpBitwiseNot.
Definition vm_hash : gen := emit OpHash.

Section ContractCode.
(** The variables [run_op] closes over: the contract id, the normalised
    instruction list [code], and the generators [code_size] and [dispatch].
    Both are [modifies_stack] subroutines; the embedding puts their body in
    line, which acts on the data stack as the call does.  The generator
    [dispatch_contract] is only handed on to [execution.call] and
    [execution.staticcall], which are recorded by name. *)
Variable contract_id : Z.
Variable code_ : list insn.
Variable code_size : gen.
Variable dispatch : gen.

Definition unhandled (i : Instruction) : gen :=
  Raised (Exception ("Unhandled instruction " +:+ str_instr i)).

Definition run_op_evm (instr : Instruction) : gen :=
  let nm := name instr in
  if String.eqb nm "HASH" then vm_hash
  else if String.eqb nm "SELF_BALANCE" then
    vm_push (VInt 0) ;;; vm_extern "os.balance_get" []
  else if String.eqb nm "ADD" then vm_add
  else if String.eqb nm "MUL" then vm_mul
  else if String.eqb nm "SUB" then vm_sub
  else if String.eqb nm "DIV" then vm_div
  else if String.eqb nm "MOD" then vm_mod
  else if String.eqb nm "EXP" then vm_exp
  else if String.eqb nm "AND" then vm_bitwise_and
  else if String.eqb nm "OR" then vm_bitwise_or
  else if String.eqb nm "NOT" then vm_bitwise_not
  else if String.eqb nm "LT" then vm_lt
  else if String.eqb nm "GT" then vm_gt
  else if String.eqb nm "EQ" then vm_eq
  else if String.eqb nm "ISZERO" then vm_iszero
  else if String.eqb nm "TIMESTAMP" then vm_extern "os.message_timestamp" []
  else if String.eqb (str_prefix 4 nm) "SWAP" then
    swap_num ← py_int (str_suffix 4 nm);
    if swap_num =? 1 then vm_swap1
    else if swap_num =? 2 then vm_swap2
    else vm_extern "stack_manip.swap_n" [swap_num]
  else if String.eqb nm "POP" then vm_pop
  else if String.eqb nm "SLOAD" then vm_extern "os.storage_load" []
  else if String.eqb nm "SSTORE" then vm_extern "os.storage_store" []
  else if String.eqb nm "MSTORE" then vm_extern "os.memory_store" []
  else if String.eqb nm "MLOAD" then vm_extern "os.memory_load" []
  else if String.eqb nm "ADDRESS" then vm_push (VInt contract_id)
  else if String.eqb nm "CALLER" then vm_extern "os.message_caller" []
  else if String.eqb nm "CALLVALUE" then vm_extern "os.message_value" []
  else if String.eqb nm "CALLDATALOAD" then
    vm_extern "os.message_data_load" []
  else if String.eqb nm "CALLDATASIZE" then
    vm_extern "os.message_data_size" []
  else if String.eqb nm "CODESIZE" then
    vm_push (VInt (Z.of_nat (length code_)))
  else if String.eqb nm "EXTCODESIZE" then
    code_size ;;; vm_dup0 ;;; vm_tnewn 0 ;;; vm_eq ;;; vm_if vm_halt
  else if String.eqb nm "GAS" then vm_push (VInt 9999999999)
  else if String.eqb nm "CODECOPY" then
    vm_extern "os.evm_copy_to_memory" []
  else if String.eqb (str_prefix 4 nm) "PUSH" then
    (* a decoded push always carries its operand *)
    match operand instr with
    | Some v => vm_push (VInt v)
    | None => Raised ValueError
    end
  else if String.eqb (str_prefix 3 nm) "DUP" then
    n ← py_int (str_suffix 3 nm);
    let dup_num := n - 1 in
    if dup_num =? 0 then vm_dup0
    else if dup_num =? 1 then vm_dup1
    else if dup_num =? 2 then vm_dup2
    else vm_extern "stack_manip.dup_n" [dup_num]
  else if String.eqb nm "RETURNDATASIZE" then
    vm_extern "os.return_data_size" []
  else if String.eqb nm "RETURNDATACOPY" then
    vm_extern "os.return_data_copy" []
  else if String.eqb nm "CALL" then
    vm_extern "execution.call" [pc instr; contract_id]
  else if String.eqb nm "STATICCALL" then
    vm_extern "execution.staticcall" [pc instr; contract_id]
  else if String.eqb nm "STOP" then vm_extern "execution.stop" []
  else if String.eqb nm "REVERT" then vm_extern "execution.revert" []
  else if String.eqb nm "RETURN" then vm_extern "execution.ret" []
  else if String.eqb nm "INVALID" then vm_extern "execution.revert" []
  else if String.eqb nm "SELFDESTRUCT" then
    vm_extern "execution.selfdestruct" []
  else if String.eqb nm "JUMPI" then
    dispatch ;;; vm_dup0 ;;; vm_tnewn 0 ;;; vm_eq ;;;
    vm_ifelse vm_halt vm_cjump
  else if String.eqb nm "JUMP" then
    dispatch ;;; vm_dup0 ;;; vm_tnewn 0 ;;; vm_eq ;;;
    vm_ifelse vm_halt vm_jump
  else if String.eqb nm "JUMPDEST" then
    vm_set_label (jumpdest_label contract_id (pc instr))
  else if String.eqb nm "SHA3" then vm_extern "os.evm_sha3" []
  else if String.eqb nm "LOG1" then vm_extern "os.evm_log1" []
  else if String.eqb nm "LOG2" then vm_extern "os.evm_log2" []
  else if String.eqb nm "LOG3" then vm_extern "os.evm_log3" []
  else unhandled instr.

(** [run_op(instr)(vm)].  The fused pseudo-instruction has the name
    [SELF_BALANCE], so the chain stops at its second test, before any other
    attribute is read. *)
Definition run_op (instr : insn) : gen :=
  match instr with
  | SelfBalance => vm_push (VInt 0) ;;; vm_extern "os.balance_get" []
  | EvmInsn i => run_op_evm i
  end.

(** The loop that compiles one block per instruction; the first exception
    ends it. *)
Fixpoint compile_blocks (l : list insn) : outcome (list code) :=
  match l with
  | [] => Returned []
  | instr :: l' =>
      block ← run_op instr;
      blocks ← compile_blocks l';
      Returned (block :: blocks)
  end.
End ContractCode.

(** The mnemonics the chain of [run_op] has a branch for. *)
Definition translated_names : list string :=
  ["HASH"; "SELF_BALANCE"; "ADD"; "MUL"; "SUB"; "DIV"; "MOD"; "EXP"; "AND";
   "OR"; "NOT"; "LT"; "GT"; "EQ"; "ISZERO"; "TIMESTAMP"; "POP"; "SLOAD";
   "SSTORE"; "MSTORE"; "MLOAD"; "ADDRESS"; "CALLER"; "CALLVALUE";
   "CALLDATALOAD"; "CALLDATASIZE"; "CODESIZE"; "EXTCODESIZE"; "GAS";
   "CODECOPY"; "RETURNDATASIZE"; "RETURNDATACOPY"; "CALL"; "STATICCALL";
   "STOP"; "REVERT"; "RETURN"; "INVALID"; "SELFDESTRUCT"; "JUMPI"; "JUMP";
   "JUMPDEST"; "SHA3"; "LOG1"; "LOG2"; "LOG3"].

Definition translated (nm : string) : bool :=
  existsb (String.eqb nm) translated_names
  || String.eqb (str_prefix 4 nm) "SWAP"
  || String.eqb (str_prefix 4 nm) "PUSH"
  || String.eqb (str_prefix 3 nm) "DUP".

(** ** Contract compiler: [generate_contract_code] *)

(** The [for insn in code] loop that collects the jump destinations. *)
Fixpoint jump_table_entries (contract_id : Z) (code_ : list insn)
  : list entry :=
  match code_ with
  | [] => []
  | EvmInsn i :: rest =>
      if String.eqb (name i) "JUMPDEST" then
        (pc i, VLabel (jumpdest_label contract_id (pc i)))
        :: jump_table_entries contract_id rest
      else jump_table_entries contract_id rest
  | SelfBalance :: rest => jump_table_entries contract_id rest
  end.

(** The program counters of the [JUMPDEST] instructions, in code order. *)
Fixpoint jumpdests (code_ : list insn) : list Z :=
  match code_ with
  | [] => []
  | EvmInsn i :: rest =>
      if String.eqb (name i) "JUMPDEST" then pc i :: jumpdests rest
      else jumpdests rest
  | SelfBalance :: rest => jumpdests rest
  end.

Definition jump_table (contract_id : Z) (code_ : list insn) : list entry :=
  sorted_by fst (jump_table_entries contract_id code_).

(** The jump table is a local list nobody changes after [make_bst_lookup]
    received it. *)
Definition dispatch_of (contract_id : Z) (code_ : list insn) : gen :=
  make_bst_lookup (jump_table contract_id code_)
                  (jump_table contract_id code_).

Definition normalize (raw : list Instruction) : outcome (list insn) :=
  replace_self_balance (remove_metadata raw).

(** A compiled contract: its entry label and one block per instruction.  The
    diagnostic tag [add_node] attaches to each block is left out, and so are
    the code blob [code_tuple] and the generator [dispatch_contract], which
    only reach calls into the runtime. *)
Record contract_block := {
  entry_label : string;
  blocks : list code
}.

Definition generate_contract_code
  (label : string) (raw : list Instruction) (contract_id : Z)
  (code_size : gen) : outcome contract_block :=
  code_ ← normalize raw;
  let dispatch := dispatch_of contract_id code_ in
  bs ← compile_blocks contract_id code_ code_size dispatch code_;
  Returned {| entry_label := label; blocks := bs |}.

(** ** Program assembler: the lists built by [generate_evm_code] *)

(** [contracts] maps a contract id to its disassembled code; the two loops run
    over [sorted(contracts)].  Disassembly itself and the initialisation and
    run-loop blocks are not modelled; the [storage] dictionary is threaded
    through the second loop in [compile_contracts_storage] below. *)
Definition sorted_contracts (contracts : gmap Z (list Instruction))
  : list (Z * list Instruction) :=
  sorted_by fst (map_to_list contracts).

Definition code_sizes (contracts : gmap Z (list Instruction)) : list entry :=
  (λ c, (c.1, VInt (Z.of_nat (length c.2)))) <$> sorted_contracts contracts.

(** [contract_dispatch] when [make_bst_lookup] receives it. *)
Definition contract_dispatch (contracts : gmap Z (list Instruction))
  : list entry :=
  (λ c, (c.1, VLabel (contract_entry_label c.1))) <$> sorted_contracts contracts.

(** The second loop: it compiles each contract and appends to the same
    [contract_dispatch] list once more.  The state threaded through is the
    compiled contracts and the contents of that list. *)
Fixpoint compile_contracts
  (code_size : gen) (todo : list (Z * list Instruction))
  (impls : list contract_block) (dispatch_list : list entry)
  : outcome (list contract_block * list entry) :=
  match todo with
  | [] => Returned (impls, dispatch_list)
  | (contract, raw) :: todo' =>
      let label := contract_entry_label contract in
      impl ← generate_contract_code label raw contract code_size;
      compile_contracts code_size todo' (impls ++ [impl])
        (dispatch_list ++ [(contract, VLabel label)])
  end.

(** The generator [dispatch_contract], when it runs with the list in the
    state [live]. *)
Definition dispatch_contract
  (contracts : gmap Z (list Instruction)) (live : list entry) : gen :=
  make_bst_lookup (contract_dispatch contracts) live.

Definition code_size_of (contracts : gmap Z (list Instruction)) : gen :=
  make_bst_lookup (code_sizes contracts) (code_sizes contracts).

Definition generate_evm_code (contracts : gmap Z (list Instruction))
  : outcome (list contract_block * list entry) :=
  compile_contracts (code_size_of contracts) (sorted_contracts contracts)
    [] (contract_dispatch contracts).

(** ** Program assembler: the storage dictionary

    The second loop of [generate_evm_code] also writes to the caller's
    [storage] dictionary and collects [contract_info].  A dictionary survives
    an exception, so the loop is modelled with the dictionary beside the
    outcome: the first component is [storage] as the caller finds it
    afterwards, whether the call returned or raised. *)
Section Storage.
(** One contract's storage dictionary, and the empty one, [{}]. *)
Variable handle : Type.
Variable empty_handle : handle.

Fixpoint compile_contracts_storage
  (code_size : gen) (todo : list (Z * list Instruction))
  (impls : list contract_block) (dispatch_list : list entry)
  (contract_info : list (Z * handle)) (storage : gmap Z handle)
  : gmap Z handle *
    outcome (list contract_block * list entry * list (Z * handle)) :=
  match todo with
  | [] => (storage, Returned (impls, dispatch_list, contract_info))
  | (contract, raw) :: todo' =>
      (* if contract not in storage: storage[contract] = {} *)
      let storage' :=
        match storage !! contract with
        | Some _ => storage
        | None => <[contract := empty_handle]> storage
        end in
      let label := contract_entry_label contract in
      match generate_contract_code label raw contract code_size with
      | Raised e => (storage', Raised e)
      | Returned impl =>
          (* storage[contract], read for contract_info *)
          let h := default empty_handle (storage !! contract) in
          compile_contracts_storage code_size todo' (impls ++ [impl])
            (dispatch_list ++ [(contract, VLabel label)])
            (contract_info ++ [(contract, h)]) storage'
      end
  end.

Definition generate_evm_code_storage
  (contracts : gmap Z (list Instruction)) (storage : gmap Z handle)
  : gmap Z handle *
    outcome (list contract_block * list entry * list (Z * handle)) :=
  compile_contracts_storage (code_size_of contracts)
    (sorted_contracts contracts) [] (contract_dispatch contracts) [] storage.
End Storage.

(** ** Measures and reference points used by the statements *)

(** The keys a lookup is compared with, along each control path of a block.
    A comparison ([lt], [gt], [eq]) tests the lookup key against the integer
    constant pushed before it ([pending]); [dup0] and [dup1] only copy stack
    cells and leave that constant in place; a branch forks the path. *)
Fixpoint stmt_paths (o : stmt) : list (list Z) :=
  let fix block_paths (c : list stmt) (pending : option Z)
    {struct c} : list (list Z) :=
    match c with
    | [] => [[]]
    | o' :: c' =>
        match o' with
        | OpPush (VInt k) => block_paths c' (Some k)
        | OpDup0 | OpDup1 => block_paths c' pending
        | OpLt | OpGt | OpEq =>
            match pending with
            | Some k => cons k <$> block_paths c' None
            | None => block_paths c' None
            end
        | OpIfElse _ _ =>
            p ← stmt_paths o'; q ← block_paths c' None; [p ++ q]
        | _ => block_paths c' None
        end
    end in
  match o with
  | OpIfElse t e => block_paths t None ++ block_paths e None
  | _ => [[]]
  end.

Fixpoint block_paths (c : code) (pending : option Z) : list (list Z) :=
  match c with
  | [] => [[]]
  | o' :: c' =>
      match o' with
      | OpPush (VInt k) => block_paths c' (Some k)
      | OpDup0 | OpDup1 => block_paths c' pending
      | OpLt | OpGt | OpEq =>
          match pending with
          | Some k => cons k <$> block_paths c' None
          | None => block_paths c' None
          end
      | OpIfElse _ _ =>
          p ← stmt_paths o'; q ← block_paths c' None; [p ++ q]
      | _ => block_paths c' None
      end
  end.

(** Comparison depth of a block: the largest number of distinct table keys
    the lookup key is compared with on one path. *)
Definition distinct_keys (p : list Z) : nat := length (remove_dups p).

Definition comparison_depth (c : code) : nat :=
  max_list (distinct_keys <$> block_paths c None).

(** The number of positions at which the marker pair (0xA1, 0x65) starts. *)
Definition marker_count (instrs : list Instruction) : nat :=
  length (filter (λ i, marker_at instrs i = true) (seq 0 (length instrs))).

(** The blocks the three generators of [make_bst_lookup] emit. *)
Definition leaf_1_code (k : Z) (t : value) : code :=
  [OpPush (VInt k); OpEq; OpIfElse [OpPush t] [OpTnewn 0]].

Definition leaf_2_code (k0 : Z) (t0 : value) (k1 : Z) (t1 : value) : code :=
  [OpDup0; OpPush (VInt k0); OpEq;
   OpIfElse [OpPop; OpPush t0]
            [OpPush (VInt k1); OpEq; OpIfElse [OpPush t1] [OpTnewn 0]]].

Definition node_code (pivot : Z) (tgt : value) (cl cr : code) : code :=
  [OpPush (VInt pivot); OpDup1; OpLt;
   OpIfElse cl
            [OpPush (VInt pivot); OpDup1; OpGt;
             OpIfElse cr [OpPop; OpPush tgt]]].

(** The one-entry leaf as the specification words it: duplicate the key,
    compare it with the entry's key; if equal, discard the key copy and push
    the target; otherwise push the sentinel. *)
Definition spec_leaf_1 (k : Z) (t : value) : code :=
  [OpDup0; OpPush (VInt k); OpEq;
   OpIfElse [OpPop; OpPush t] [OpTnewn 0]].

(** Whether [sub] occurs in [s]. *)
Definition contains (sub s : string) : bool :=
  match index 0 sub s with
  | Some _ => true
  | None => false
  end.

(** The idiom the fusion pass looks for. *)
Definition self_balance_idiom (a b c d : Instruction) : Prop :=
  name a = "ADDRESS" ∧ name b = "PUSH20" ∧ operand b = Some address_mask ∧
  name c = "AND" ∧ name d = "BALANCE".

(** ** Sample inputs *)

(** A decoded instruction without operand, and a decoded push. *)
Definition plain (nm : string) (op pc_ : Z) : Instruction :=
  {| name := nm; opcode := op; operand := None; pc := pc_ |}.

Definition pushing (nm : string) (op v pc_ : Z) : Instruction :=
  {| name := nm; opcode := op; operand := Some v; pc := pc_ |}.

(** [ADDRESS; PUSH20 0xff..ff; AND] followed by a second [ADDRESS] where the
    idiom has [BALANCE]. *)
Definition deviating_idiom : list Instruction :=
  [plain "ADDRESS" 0x30 0; pushing "PUSH20" 0x73 address_mask 1;
   plain "AND" 0x16 22; plain "ADDRESS" 0x30 23].

Definition exact_idiom : list Instruction :=
  [plain "ADDRESS" 0x30 0; pushing "PUSH20" 0x73 address_mask 1;
   plain "AND" 0x16 22; plain "BALANCE" 0x31 23].

(** Two marker pairs: [LOG1] has opcode 0xA1 and [PUSH6] has opcode 0x65. *)
Definition two_markers : list Instruction :=
  [plain "LOG1" 0xa1 0; pushing "PUSH6" 0x65 0x627a7a723058 1;
   plain "LOG1" 0xa1 8; pushing "PUSH6" 0x65 0x627a7a723058 9].

Definition one_marker : list Instruction :=
  [plain "STOP" 0x00 0; plain "LOG1" 0xa1 1;
   pushing "PUSH6" 0x65 0x627a7a723058 2; plain "STOP" 0x00 9].

(** A contract whose jump destinations sit at 10, 20 and 30. *)
Definition three_jumpdests : list Instruction :=
  [pushing "PUSH1" 0x60 20 0; plain "JUMP" 0x56 2;
   plain "JUMPDEST" 0x5b 10; plain "JUMPDEST" 0x5b 20;
   plain "JUMPDEST" 0x5b 30; plain "STOP" 0x00 31].

(** The same contract followed by compiler metadata. *)
Definition with_metadata : list Instruction :=
  three_jumpdests ++
  [plain "LOG1" 0xa1 32; pushing "PUSH6" 0x65 0x627a7a723058 33;
   plain "STOP" 0x00 40].

Definition four_entries : list entry :=
  [(10, VLabel "a"); (20, VLabel "b"); (30, VLabel "c"); (40, VLabel "d")].

(** ** Further measures *)

(** How many fused pseudo-instructions a normalised list holds. *)
Fixpoint count_fused (l : list insn) : nat :=
  match l with
  | [] => O
  | SelfBalance :: rest => S (count_fused rest)
  | EvmInsn _ :: rest => count_fused rest
  end.

(** The idiom with [POP] where it has [BALANCE]. *)
Definition deviating_idiom_prefix : list Instruction :=
  [plain "ADDRESS" 0x30 0; pushing "PUSH20" 0x73 address_mask 1;
   plain "AND" 0x16 22; plain "POP" 0x50 23].

(** The instructions [run_op] has a branch for and can finish: a mnemonic of
    the chain, [PUSH<n>] with its operand, or [SWAP<n>] and [DUP<n>] with a
    decimal number. *)
Definition is_number (s : string) : bool :=
  match py_int s with
  | Returned _ => true
  | Raised _ => false
  end.

Definition translates (i : Instruction) : bool :=
  existsb (String.eqb (name i)) translated_names
  || (String.eqb (str_prefix 4 (name i)) "SWAP"
      && is_number (str_suffix 4 (name i)))
  || (String.eqb (str_prefix 4 (name i)) "PUSH"
      && bool_decide (is_Some (operand i)))
  || (String.eqb (str_prefix 3 (name i)) "DUP"
      && is_number (str_suffix 3 (name i))).

Definition insn_translates (x : insn) : bool :=
  match x with
  | EvmInsn i => translates i
  | SelfBalance => true
  end.



(** Every [ADDRESS] has three instructions after it. *)
Definition addresses_have_room (instrs : list Instruction) : bool :=
  forallb
    (λ i, match instrs !! i with
          | Some a =>
              negb (String.eqb (name a) "ADDRESS")
              || (i + 3 <? length instrs)%nat
          | None => true
          end)
    (seq 0 (length instrs)).

(** * Properties *)

(** ** Interpreter equations *)

Lemma exec_stmt_ifelse t e c s :
  exec_stmt (OpIfElse t e) (VInt c :: s) =
  if c =? 0 then exec e s else exec t s.
Proof. simpl. destruct (c =? 0); reflexivity. Qed.

Lemma exec_cons o c s :
  exec (o :: c) s =
  match exec_stmt o s with Running s' => exec c s' | r => r end.
Proof. reflexivity. Qed.

Lemma exec_app c1 c2 s :
  exec (c1 ++ c2) s =
  match exec c1 s with Running s' => exec c2 s' | r => r end.
Proof.
  revert s. induction c1 as [|o c1 IH]; intros s; [reflexivity|].
  simpl app. rewrite !exec_cons. destruct (exec_stmt o s); auto.
Qed.

Lemma exec_ifelse_true t e s c :
  exec (OpIfElse t e :: c) (bool_value true :: s) =
  match exec t s with Running s' => exec c s' | r => r end.
Proof. rewrite exec_cons. unfold bool_value. rewrite exec_stmt_ifelse. reflexivity. Qed.

Lemma exec_ifelse_false t e s c :
  exec (OpIfElse t e :: c) (bool_value false :: s) =
  match exec e s with Running s' => exec c s' | r => r end.
Proof. rewrite exec_cons. unfold bool_value. rewrite exec_stmt_ifelse. reflexivity. Qed.

(** ** Association lists *)

Lemma assoc_app key l1 l2 :
  assoc key (l1 ++ l2) =
  match assoc key l1 with Some t => Some t | None => assoc key l2 end.
Proof.
  induction l1 as [|[k t] l1 IH]; simpl; [reflexivity|].
  destruct (k =? key); auto.
Qed.

Lemma assoc_None key items : key ∉ items.*1 → assoc key items = None.
Proof.
  induction items as [|[k t] items IH]; simpl; [reflexivity|].
  intros Hn. apply not_elem_of_cons in Hn as [Hne Hn].
  destruct (Z.eqb_spec k key); [congruence|auto].
Qed.

Lemma assoc_Some key t items :
  NoDup items.*1 → (key, t) ∈ items → assoc key items = Some t.
Proof.
  induction items as [|[k t'] items IH]; simpl; intros Hnd Hin.
  - inversion Hin.
  - apply NoDup_cons in Hnd as [Hk Hnd].
    apply elem_of_cons in Hin as [Heq|Hin].
    + inversion Heq; subst. rewrite Z.eqb_refl. reflexivity.
    + destruct (Z.eqb_spec k key) as [->|Hne]; [|auto].
      exfalso. apply Hk. apply list_elem_of_fmap. exists (key, t). auto.
Qed.

(** ** The dispatch tree finds exactly the entries of its table *)

Lemma getitem_Some {A} (l : list A) i a : l !! i = Some a → getitem l i = Returned a.
Proof. unfold getitem. intros ->. reflexivity. Qed.

Lemma bst_small_keys key items :
  (∀ k, k ∈ items.*1 → key < k) → assoc key items = None.
Proof.
  intros H. apply assoc_None. intros Hin. apply H in Hin. lia.
Qed.

Lemma bst_large_keys key items :
  (∀ k, k ∈ items.*1 → k < key) → assoc key items = None.
Proof.
  intros H. apply assoc_None. intros Hin. apply H in Hin. lia.
Qed.

Lemma lookup_result_split L pivot tgt R key :
  (∀ k, k ∈ L.*1 → k < pivot) →
  (∀ k, k ∈ R.*1 → pivot < k) →
  lookup_result key (L ++ (pivot, tgt) :: R) =
  if key <? pivot then lookup_result key L
  else if pivot <? key then lookup_result key R
  else tgt.
Proof.
  intros HL HR. unfold lookup_result. rewrite assoc_app. simpl.
  destruct (Z.ltb_spec key pivot) as [Hlt|Hge].
  - rewrite (bst_small_keys key R) by (intros k Hk; apply HR in Hk; lia).
    destruct (Z.eqb_spec pivot key); [lia|].
    destruct (assoc key L); reflexivity.
  - rewrite (bst_large_keys key L)
      by (intros k Hk; apply HL in Hk; lia).
    destruct (Z.ltb_spec pivot key) as [Hgt|Hle].
    + destruct (Z.eqb_spec pivot key); [lia|reflexivity].
    + destruct (Z.eqb_spec pivot key); [reflexivity|lia].
Qed.

Lemma make_bst_lookup_node items live :
  (3 ≤ length items)%nat →
  make_bst_lookup items live =
  (let mid := (length items / 2)%nat in
   let left_ := take mid items in
   let right_ := drop (mid + 1) items in
   p ← getitem items mid;
   let pivot := p.1 in
   vm_push (VInt pivot) ;;; vm_dup1 ;;; vm_lt ;;;
   vm_ifelse
     (make_bst_lookup left_ left_)
     (vm_push (VInt pivot) ;;; vm_dup1 ;;; vm_gt ;;;
      vm_ifelse
        (make_bst_lookup right_ right_)
        (vm_pop ;;; (m ← getitem live mid; vm_push m.2)))).
Proof.
  intros Hge. rewrite make_bst_lookup_equation_1.
  destruct (le_lt_dec _ _) as [H|H]; [|lia].
  apply make_bst_lookup_clause_1_equation_1.
Qed.

Lemma make_bst_lookup_leaf items live :
  (length items < 3)%nat →
  make_bst_lookup items live =
  if (length items =? 2)%nat then impl_2 live
  else if (length items =? 1)%nat then impl_1 live
  else handle_bad_jump.
Proof.
  intros Hlt. rewrite make_bst_lookup_equation_1.
  destruct (le_lt_dec _ _) as [H|H]; [lia|].
  apply make_bst_lookup_clause_1_equation_2.
Qed.

(** The shape of the emitted code, as an induction principle: whatever holds
    of the three leaves and is preserved by a node holds of the block
    [make_bst_lookup] emits, also when the list object has grown since. *)
Lemma make_bst_lookup_shape (P : list entry → code → Prop) :
  P [] [OpTnewn 0] →
  (∀ k t, P [(k, t)] (leaf_1_code k t)) →
  (∀ k0 t0 k1 t1, P [(k0, t0); (k1, t1)] (leaf_2_code k0 t0 k1 t1)) →
  (∀ L pivot tgt R cl cr,
     (0 < length R ≤ length L)%nat → (length L ≤ S (length R))%nat →
     P L cl → P R cr →
     P (L ++ (pivot, tgt) :: R) (node_code pivot tgt cl cr)) →
  ∀ items,
    ∃ c, (∀ extra, make_bst_lookup items (items ++ extra) = Returned c) ∧
         P items c.
Proof.
  intros P0 P1 P2 Pn items.
  induction items as [items IH] using (induction_ltof1 _ (@length _)).
  unfold ltof in IH.
  destruct (le_lt_dec 3 (length items)) as [Hge|Hlt].
  - set (mid := (length items / 2)%nat).
    assert (Hmid : (mid < length items)%nat) by (apply Nat.div_lt; lia).
    destruct (lookup_lt_is_Some_2 items mid Hmid) as [[pivot tgt] Hp].
    pose proof (take_drop_middle _ _ _ Hp) as Hsplit.
    set (L := take mid items) in *. set (R := drop (S mid) items) in *.
    assert (Hhalf : (2 * mid ≤ length items < 2 * mid + 2)%nat).
    { subst mid. pose proof (Nat.div_mod_eq (length items) 2).
      pose proof (Nat.mod_upper_bound (length items) 2). lia. }
    assert (HlenL : length L = mid) by (subst L; rewrite length_take; lia).
    assert (HlenR : (length R = length items - S mid)%nat)
      by (subst R; by rewrite length_drop).
    destruct (IH L ltac:(lia)) as (cl & Hcl & HPl).
    destruct (IH R ltac:(lia)) as (cr & Hcr & HPr).
    specialize (Hcl []). specialize (Hcr []).
    rewrite app_nil_r in Hcl, Hcr.
    exists (node_code pivot tgt cl cr). split.
    + intros extra. rewrite make_bst_lookup_node by done. cbv zeta.
      fold mid. rewrite Nat.add_1_r. fold L R.
      rewrite (getitem_Some _ _ _ Hp).
      rewrite (getitem_Some (items ++ extra) mid (pivot, tgt))
        by (rewrite lookup_app_l; done).
      rewrite Hcl, Hcr. reflexivity.
    + rewrite <- Hsplit. apply Pn; [lia|lia|done|done].
  - destruct items as [|[k0 t0] [|[k1 t1] [|? ?]]]; simpl in Hlt; try lia;
      eexists; (split; [intros extra; rewrite make_bst_lookup_leaf by done;
                        reflexivity|]); auto.
Qed.

(** Appending to the list object after [make_bst_lookup] was called does not
    change what the generator emits: every cell it reads later was there. *)
Lemma make_bst_lookup_grown items extra :
  make_bst_lookup items (items ++ extra) = make_bst_lookup items items.
Proof.
  destruct (make_bst_lookup_shape (λ _ _, True)) with (items := items)
    as (c & Hc & _); try done.
  rewrite (Hc extra). rewrite <- (Hc []). by rewrite app_nil_r.
Qed.

Lemma exec_node_code pivot tgt cl cr key rest :
  exec (node_code pivot tgt cl cr) (VInt key :: rest) =
  if key <? pivot then exec cl (VInt key :: rest)
  else if pivot <? key then exec cr (VInt key :: rest)
  else Running (tgt :: rest).
Proof.
  unfold node_code.
  change (exec (OpPush (VInt pivot) :: OpDup1 :: OpLt :: ?c) (VInt key :: rest))
    with (exec c (bool_value (key <? pivot) :: VInt key :: rest)).
  destruct (key <? pivot).
  { rewrite exec_ifelse_true. by destruct (exec cl _). }
  rewrite exec_ifelse_false.
  change (exec (OpPush (VInt pivot) :: OpDup1 :: OpGt :: ?c) (VInt key :: rest))
    with (exec c (bool_value (key >? pivot) :: VInt key :: rest)).
  rewrite Z.gtb_ltb. destruct (pivot <? key).
  { rewrite exec_ifelse_true. by destruct (exec cr _). }
  rewrite exec_ifelse_false. reflexivity.
Qed.

Lemma make_bst_lookup_exec_aux items :
  ∃ c, (∀ extra, make_bst_lookup items (items ++ extra) = Returned c) ∧
       (items ≠ [] → StronglySorted Z.lt items.*1 →
        ∀ key rest,
          exec c (VInt key :: rest) =
          Running (lookup_result key items :: rest)).
Proof.
  apply (make_bst_lookup_shape (λ items c,
    items ≠ [] → StronglySorted Z.lt items.*1 →
    ∀ key rest,
      exec c (VInt key :: rest) = Running (lookup_result key items :: rest))).
  - done.
  - intros k t _ _ key rest. unfold lookup_result. simpl.
    rewrite (Z.eqb_sym k key). destruct (key =? k); reflexivity.
  - intros k0 t0 k1 t1 _ _ key rest. unfold lookup_result. simpl.
    rewrite (Z.eqb_sym k0 key), (Z.eqb_sym k1 key).
    destruct (key =? k0); [reflexivity|].
    destruct (key =? k1); reflexivity.
  - intros L pivot tgt R cl cr Hlen _ HL HR _ Hs key rest.
    rewrite fmap_app, fmap_cons in Hs.
    apply StronglySorted_app in Hs as (HLR & HsL & HsR).
    apply StronglySorted_cons in HsR as [HpR HsR].
    rewrite exec_node_code, lookup_result_split; cycle 1.
    { intros k Hk. apply (HLR k pivot Hk). left. }
    { intros k Hk. eapply Forall_forall in HpR; eauto. }
    assert (L ≠ []) by (intros ->; simpl in Hlen; lia).
    assert (R ≠ []) by (intros ->; simpl in Hlen; lia).
    rewrite HL, HR by done.
    destruct (key <? pivot); [done|]. by destruct (pivot <? key).
Qed.

Lemma sorted_nodup_strict (l : list Z) :
  Sorted Z.le l → NoDup l → StronglySorted Z.lt l.
Proof.
  intros Hs Hnd. apply Sorted_StronglySorted in Hs; [|apply _].
  induction Hs as [|x l Hs IH Hx]; [constructor|].
  apply NoDup_cons in Hnd as [Hnin Hnd]. constructor; [auto|].
  rewrite Forall_forall in *. intros y Hy.
  specialize (Hx y Hy). assert (x ≠ y) by (intros ->; auto). lia.
Qed.

(** Non-empty tables: the generator consumes the key and leaves the
    associated target, or the sentinel, in its place.  The list object may
    have grown by the time the generator runs. *)
Lemma make_bst_lookup_exec items extra :
  items ≠ [] →
  Sorted Z.le items.*1 → NoDup items.*1 →
  ∃ c, make_bst_lookup items (items ++ extra) = Returned c ∧
       ∀ key rest,
         exec c (VInt key :: rest) = Running (lookup_result key items :: rest).
Proof.
  intros Hne Hs Hnd.
  destruct (make_bst_lookup_exec_aux items) as (c & Hc & Hex).
  exists c. split; [done|]. apply Hex; [done|].
  by apply sorted_nodup_strict.
Qed.

Lemma make_bst_lookup_empty live :
  make_bst_lookup [] live = Returned [OpTnewn 0].
Proof. rewrite make_bst_lookup_leaf by (simpl; lia). reflexivity. Qed.

Lemma lookup_result_present key t items :
  NoDup items.*1 → (key, t) ∈ items → lookup_result key items = t.
Proof. intros Hnd Hin. unfold lookup_result. by rewrite (assoc_Some key t). Qed.

Lemma lookup_result_absent key items :
  key ∉ items.*1 → lookup_result key items = sentinel.
Proof. intros Hn. unfold lookup_result. by rewrite assoc_None. Qed.

(** The two-entry leaf on the table [(5, X); (9, Y)]. *)
Example two_entry_leaf_lookup :
  ∃ c, make_bst_lookup [(5, VLabel "X"); (9, VLabel "Y")]
                       [(5, VLabel "X"); (9, VLabel "Y")] = Returned c ∧
       exec c [VInt 5] = Running [VLabel "X"] ∧
       exec c [VInt 9] = Running [VLabel "Y"] ∧
       exec c [VInt 7] = Running [sentinel].
Proof.
  exists (leaf_2_code 5 (VLabel "X") 9 (VLabel "Y")).
  split; [reflexivity|]. repeat split.
Qed.

(** A node over five entries: every key is found, the gaps are not. *)
Example five_entry_tree_lookup :
  let items := [(1, VInt 10); (3, VInt 30); (5, VInt 50); (7, VInt 70);
                (9, VInt 90)] in
  ∃ c, make_bst_lookup items items = Returned c ∧
       (λ k, exec c [VInt k]) <$> [0; 1; 2; 3; 4; 5; 6; 7; 8; 9; 10] =
       [Running [sentinel]; Running [VInt 10]; Running [sentinel];
        Running [VInt 30]; Running [sentinel]; Running [VInt 50];
        Running [sentinel]; Running [VInt 70]; Running [sentinel];
        Running [VInt 90]; Running [sentinel]].
Proof.
  exists (node_code 5 (VInt 50) (leaf_2_code 1 (VInt 10) 3 (VInt 30))
                                (leaf_2_code 7 (VInt 70) 9 (VInt 90))).
  split; reflexivity.
Qed.

(** ** [sorted] *)

Lemma insert_by_Permutation {A} (key : A → Z) x l :
  insert_by key x l ≡ₚ x :: l.
Proof.
  induction l as [|y l IH]; simpl; [done|].
  destruct (key x <=? key y); [done|].
  rewrite IH. apply Permutation_swap.
Qed.

Lemma sorted_by_Permutation {A} (key : A → Z) l : sorted_by key l ≡ₚ l.
Proof.
  induction l as [|x l IH]; simpl; [done|].
  by rewrite insert_by_Permutation, IH.
Qed.

Lemma insert_by_Sorted {A} (key : A → Z) x l :
  Sorted Z.le (key <$> l) → Sorted Z.le (key <$> insert_by key x l).
Proof.
  induction l as [|y l IH]; simpl; intros Hs.
  - repeat constructor.
  - destruct (Z.leb_spec (key x) (key y)) as [Hle|Hgt]; simpl.
    + constructor; [done|]. by constructor.
    + apply Sorted_inv in Hs as [Hs Hhd]. constructor; [auto|].
      destruct l as [|z l]; simpl in *.
      * constructor. lia.
      * destruct (key x <=? key z); simpl; constructor; [lia|].
        by apply HdRel_inv in Hhd.
Qed.

Lemma sorted_by_Sorted {A} (key : A → Z) l :
  Sorted Z.le (key <$> sorted_by key l).
Proof.
  induction l as [|x l IH]; simpl; [constructor|].
  by apply insert_by_Sorted.
Qed.

Lemma sorted_by_elem_of {A} (key : A → Z) l x :
  x ∈ sorted_by key l ↔ x ∈ l.
Proof. by rewrite sorted_by_Permutation. Qed.

(** ** Jump tables *)

Lemma jump_table_entries_keys contract_id code_ :
  (jump_table_entries contract_id code_).*1 = jumpdests code_.
Proof.
  induction code_ as [|[i|] code_ IH]; cbn [jump_table_entries jumpdests];
    [done| |done].
  destruct (String.eqb (name i) "JUMPDEST"); [|done].
  rewrite fmap_cons. by f_equal.
Qed.

Lemma jump_table_entries_elem contract_id code_ k t :
  (k, t) ∈ jump_table_entries contract_id code_ →
  t = VLabel (jumpdest_label contract_id k).
Proof.
  induction code_ as [|[i|] code_ IH]; simpl; [by inversion 1| |done].
  destruct (String.eqb (name i) "JUMPDEST"); [|done].
  intros [Heq|Hin]%elem_of_cons; [|auto]. by inversion Heq.
Qed.

Lemma jump_table_keys contract_id code_ :
  (jump_table contract_id code_).*1 ≡ₚ jumpdests code_.
Proof.
  unfold jump_table. rewrite sorted_by_Permutation.
  by rewrite jump_table_entries_keys.
Qed.

Lemma jump_table_sorted contract_id code_ :
  Sorted Z.le (jump_table contract_id code_).*1.
Proof. apply sorted_by_Sorted. Qed.

Lemma jump_table_lookup_present contract_id code_ dest :
  NoDup (jumpdests code_) → dest ∈ jumpdests code_ →
  lookup_result dest (jump_table contract_id code_) =
  VLabel (jumpdest_label contract_id dest).
Proof.
  intros Hnd Hin. rewrite <- (jump_table_keys contract_id) in Hin, Hnd.
  apply list_elem_of_fmap in Hin as ([k t] & -> & Hin). simpl.
  rewrite (lookup_result_present k t) by done.
  apply sorted_by_elem_of in Hin. by eapply jump_table_entries_elem.
Qed.

Lemma jump_table_lookup_absent contract_id code_ dest :
  dest ∉ jumpdests code_ →
  lookup_result dest (jump_table contract_id code_) = sentinel.
Proof.
  intros Hn. apply lookup_result_absent. by rewrite jump_table_keys.
Qed.

Lemma dispatch_of_exec contract_id code_ :
  NoDup (jumpdests code_) →
  ∃ lookup, dispatch_of contract_id code_ = Returned lookup ∧
    ∀ dest rest,
      (dest ∈ jumpdests code_ →
       exec lookup (VInt dest :: rest) =
       Running (VLabel (jumpdest_label contract_id dest) :: rest)) ∧
      (dest ∉ jumpdests code_ →
       ∃ s, exec lookup (VInt dest :: rest) = Running (sentinel :: s)).
Proof.
  intros Hnd. unfold dispatch_of.
  destruct (decide (jump_table contract_id code_ = [])) as [Hnil|Hne].
  - rewrite Hnil, make_bst_lookup_empty. eexists. split; [done|].
    intros dest rest. split.
    + intros Hin. rewrite <- (jump_table_keys contract_id), Hnil in Hin.
      by inversion Hin.
    + intros _. by eexists.
  - destruct (make_bst_lookup_exec (jump_table contract_id code_) [])
      as (c & Hc & Hex); [done|apply jump_table_sorted| |].
    { by rewrite jump_table_keys. }
    rewrite app_nil_r in Hc. exists c. split; [done|].
    intros dest rest. rewrite Hex. split; intros Hd.
    + by rewrite jump_table_lookup_present.
    + rewrite jump_table_lookup_absent by done. by eexists.
Qed.

Lemma run_op_jump contract_id code_ code_size lookup instr :
  name instr = "JUMP" →
  run_op contract_id code_ code_size (Returned lookup) (EvmInsn instr) =
  Returned (lookup ++ [OpDup0; OpTnewn 0; OpEq; OpIfElse [OpHalt] [OpJump]]).
Proof. intros Hn. unfold run_op, run_op_evm. rewrite Hn. reflexivity. Qed.

Lemma run_op_jumpdest contract_id code_ code_size dispatch instr :
  name instr = "JUMPDEST" →
  run_op contract_id code_ code_size dispatch (EvmInsn instr) =
  Returned [OpSetLabel (jumpdest_label contract_id (pc instr))].
Proof. intros Hn. unfold run_op, run_op_evm. rewrite Hn. reflexivity. Qed.

Lemma run_op_jumpi contract_id code_ code_size lookup instr :
  name instr = "JUMPI" →
  run_op contract_id code_ code_size (Returned lookup) (EvmInsn instr) =
  Returned (lookup ++ [OpDup0; OpTnewn 0; OpEq; OpIfElse [OpHalt] [OpCjump]]).
Proof. intros Hn. unfold run_op, run_op_evm. rewrite Hn. reflexivity. Qed.

(** ** Comparison depth *)

Lemma stmt_paths_ifelse t e :
  stmt_paths (OpIfElse t e) = block_paths t None ++ block_paths e None.
Proof. reflexivity. Qed.

Lemma paths_bind_end (X : list (list Z)) :
  (p ← X; q ← [[]]; [p ++ q]) = X.
Proof.
  induction X as [|p X IH]; [done|].
  cbn. rewrite app_nil_r. f_equal. apply IH.
Qed.

Lemma block_paths_leaf_1 k t :
  block_paths (leaf_1_code k t) None = [[k]; [k]].
Proof. by destruct t. Qed.

Lemma block_paths_leaf_2 k0 t0 k1 t1 :
  block_paths (leaf_2_code k0 t0 k1 t1) None = [[k0]; [k0; k1]; [k0; k1]].
Proof. by destruct t0, t1. Qed.

Lemma block_paths_node pivot tgt cl cr :
  block_paths (node_code pivot tgt cl cr) None =
  cons pivot <$>
    (block_paths cl None ++ (cons pivot <$> (block_paths cr None ++ [[]]))).
Proof.
  unfold node_code.
  change (block_paths (OpPush (VInt pivot) :: OpDup1 :: OpLt :: ?c) None)
    with (cons pivot <$> block_paths c None).
  f_equal.
  change (block_paths [OpIfElse ?t ?e] None)
    with (p ← stmt_paths (OpIfElse t e); q ← [[]]; [p ++ q]).
  rewrite paths_bind_end, stmt_paths_ifelse. f_equal.
  change (block_paths (OpPush (VInt pivot) :: OpDup1 :: OpGt :: ?c) None)
    with (cons pivot <$> block_paths c None).
  f_equal.
  change (block_paths [OpIfElse ?t ?e] None)
    with (p ← stmt_paths (OpIfElse t e); q ← [[]]; [p ++ q]).
  rewrite paths_bind_end, stmt_paths_ifelse. f_equal.
  by destruct tgt.
Qed.

Lemma max_list_app_max (l1 l2 : list nat) :
  max_list (l1 ++ l2) = (max_list l1 `max` max_list l2)%nat.
Proof. induction l1 as [|x l1 IH]; simpl; [done|]. rewrite IH. lia. Qed.

Lemma distinct_keys_cons_fresh k p :
  k ∉ p → distinct_keys (k :: p) = S (distinct_keys p).
Proof.
  intros Hk. unfold distinct_keys. simpl.
  by destruct (decide_rel elem_of k p).
Qed.

Lemma distinct_keys_cons_twice k p :
  distinct_keys (k :: k :: p) = distinct_keys (k :: p).
Proof.
  unfold distinct_keys. simpl (remove_dups (k :: k :: p)).
  destruct (decide_rel elem_of k (k :: p)) as [|Hn]; [done|].
  exfalso. apply Hn. left.
Qed.

Lemma depth_cons_fresh k (X : list (list Z)) :
  X ≠ [] → (∀ p, p ∈ X → k ∉ p) →
  max_list (distinct_keys <$> (cons k <$> X)) =
  S (max_list (distinct_keys <$> X)).
Proof.
  induction X as [|p X IH]; [done|]. intros _ Hk.
  rewrite !fmap_cons. simpl.
  rewrite distinct_keys_cons_fresh by (apply Hk; left).
  destruct X as [|p' X]; [simpl; lia|].
  rewrite IH; [lia|done|]. intros q Hq. apply Hk. by right.
Qed.

Lemma depth_cons_twice k (X : list (list Z)) :
  distinct_keys <$> (cons k <$> (cons k <$> X)) =
  distinct_keys <$> (cons k <$> X).
Proof.
  induction X as [|p X IH]; [done|].
  rewrite !fmap_cons, distinct_keys_cons_twice. by f_equal.
Qed.

Lemma log2_up_halve n :
  (1 ≤ n)%nat → Nat.log2_up (n + 1) = S (Nat.log2_up (n / 2 + 1)).
Proof.
  intros Hn. rewrite Nat.log2_up_eqn by lia.
  replace (Nat.pred (n + 1)) with n by lia. f_equal.
  destruct (decide (n = 1%nat)) as [->|Hne]; [done|].
  assert (Hh : (1 ≤ n / 2)%nat) by (apply Nat.div_le_lower_bound; lia).
  rewrite Nat.log2_up_eqn by lia.
  replace (Nat.pred (n / 2 + 1)) with (n / 2)%nat by lia.
  pose proof (Nat.div_mod_eq n 2) as Hdm.
  pose proof (Nat.mod_upper_bound n 2 ltac:(lia)) as Hm.
  destruct (decide (n mod 2 = 0)%nat) as [H0|H1].
  - rewrite Hdm at 1. rewrite H0, Nat.add_0_r. apply Nat.log2_double. lia.
  - rewrite Hdm at 1. replace (n mod 2)%nat with 1%nat by lia.
    apply Nat.log2_succ_double. lia.
Qed.

Ltac path_cases Hp Hk :=
  rewrite ?list_elem_of_In in *; simpl in *;
  repeat (destruct Hp as [<-|Hp]; [simpl in Hk; tauto|]);
  destruct Hp.

Lemma make_bst_lookup_depth_aux items :
  ∃ c, (∀ extra, make_bst_lookup items (items ++ extra) = Returned c) ∧
       (NoDup items.*1 →
        block_paths c None ≠ [] ∧
        (∀ p k, p ∈ block_paths c None → k ∈ p → k ∈ items.*1) ∧
        max_list (distinct_keys <$> block_paths c None) =
        Nat.log2_up (length items + 1)).
Proof.
  apply (make_bst_lookup_shape (λ items c,
    NoDup items.*1 →
    block_paths c None ≠ [] ∧
    (∀ p k, p ∈ block_paths c None → k ∈ p → k ∈ items.*1) ∧
    max_list (distinct_keys <$> block_paths c None) =
    Nat.log2_up (length items + 1))).
  - intros _. split; [done|]. split; [|done].
    intros p k Hp Hk. apply list_elem_of_singleton in Hp. subst.
    by inversion Hk.
  - intros k t _. rewrite block_paths_leaf_1. split; [done|]. split; [|done].
    intros p k' Hp Hk. path_cases Hp Hk.
  - intros k0 t0 k1 t1 Hnd. rewrite block_paths_leaf_2.
    split; [done|].
    split; [intros p k' Hp Hk; path_cases Hp Hk|].
    apply NoDup_cons in Hnd as [Hne _].
    assert (k0 ≠ k1) by (intros ->; apply Hne; left).
    unfold distinct_keys. simpl.
    destruct (decide_rel elem_of k0 [k1]) as [Hin|]; [|done].
    by apply list_elem_of_singleton in Hin.
  - intros L pivot tgt R cl cr Hlen1 Hlen2 HL HR Hnd.
    rewrite fmap_app, fmap_cons in Hnd. simpl in Hnd.
    apply NoDup_app in Hnd as (HndL & HLR & HndR).
    apply NoDup_cons in HndR as [HpR HndR].
    destruct (HL HndL) as (HneL & HkL & HdL).
    destruct (HR HndR) as (HneR & HkR & HdR).
    rewrite block_paths_node.
    split; [|split].
    + by destruct (block_paths cl None).
    + intros p k Hp Hk. rewrite fmap_app, fmap_cons. simpl.
      apply list_elem_of_fmap in Hp as (q & -> & Hq).
      apply elem_of_cons in Hk as [->|Hk]; [apply elem_of_app; right; left|].
      apply elem_of_app in Hq as [Hq|Hq].
      { apply elem_of_app. left. eauto. }
      apply list_elem_of_fmap in Hq as (q' & -> & Hq').
      apply elem_of_cons in Hk as [->|Hk]; [apply elem_of_app; right; left|].
      apply elem_of_app in Hq' as [Hq'|Hq'].
      { apply elem_of_app. right. right. eauto. }
      apply list_elem_of_singleton in Hq'. subst. by inversion Hk.
    + set (Pl := block_paths cl None) in *.
      set (Pr := block_paths cr None) in *.
      rewrite (fmap_app (cons pivot) Pl), (fmap_app distinct_keys).
      rewrite max_list_app_max, depth_cons_twice.
      rewrite depth_cons_fresh; [|done|]; cycle 1.
      { intros p Hp Hin. apply (HLR pivot); [eauto|left]. }
      rewrite depth_cons_fresh; cycle 1.
      { by destruct Pr. }
      { intros p [Hp|Hp]%elem_of_app Hin; [eauto|].
        apply list_elem_of_singleton in Hp. subst. by inversion Hin. }
      rewrite fmap_app, max_list_app_max, HdL, HdR. simpl.
      rewrite length_app. simpl.
      assert (Hmono : (Nat.log2_up (length R + 1) ≤ Nat.log2_up (length L + 1))%nat)
        by (apply Nat.log2_up_le_mono; lia).
      rewrite (log2_up_halve (length L + S (length R))) by lia.
      replace ((length L + S (length R)) / 2)%nat with (length L); [lia|].
      apply Nat.div_unique with (r := (S (length R) - length L)%nat); lia.
Qed.

(** ** Metadata stripping *)

Lemma marker_at_lt instrs i :
  marker_at instrs i = true → (i + 1 < length instrs)%nat.
Proof.
  unfold marker_at. destruct (instrs !! i); [|done].
  destruct (instrs !! (i + 1)%nat) eqn:H2; [|done].
  intros _. by eapply lookup_lt_Some.
Qed.

Lemma marker_at_take instrs i j :
  marker_at (take i instrs) j = true →
  (j + 1 < i)%nat ∧ marker_at instrs j = true.
Proof.
  intros H. pose proof (marker_at_lt _ _ H) as Hlt.
  rewrite length_take in Hlt. split; [lia|].
  unfold marker_at in *. by rewrite !lookup_take_lt in H by lia.
Qed.

(** The scan stops at the largest index below [n] where the marker starts. *)
Lemma remove_metadata_from_spec instrs n :
  (remove_metadata_from instrs n = instrs ∧
   ∀ j, (j < n)%nat → marker_at instrs j = false) ∨
  (∃ i, (i < n)%nat ∧ marker_at instrs i = true ∧
        remove_metadata_from instrs n = take i instrs ∧
        ∀ j, (i < j < n)%nat → marker_at instrs j = false).
Proof.
  induction n as [|n IH]; simpl.
  - left. split; [done|]. intros j Hj. lia.
  - destruct (marker_at instrs n) eqn:Hm.
    + right. exists n. repeat split; [lia|done|]. intros j Hj. lia.
    + destruct IH as [[Heq Hno]|(i & Hi & Hmi & Heq & Hno)].
      * left. split; [done|]. intros j Hj.
        destruct (decide (j = n)) as [->|]; [done|]. apply Hno. lia.
      * right. exists i. repeat split; [lia|done|done|]. intros j Hj.
        destruct (decide (j = n)) as [->|]; [done|]. apply Hno. lia.
Qed.

Lemma remove_metadata_spec instrs :
  (remove_metadata instrs = instrs ∧ ∀ j, marker_at instrs j = false) ∨
  (∃ i, marker_at instrs i = true ∧
        remove_metadata instrs = take i instrs ∧
        ∀ j, (i < j)%nat → marker_at instrs j = false).
Proof.
  assert (Hout : ∀ j, (length instrs - 1 ≤ j)%nat → marker_at instrs j = false).
  { intros j Hj. destruct (marker_at instrs j) eqn:Hm; [|done].
    apply marker_at_lt in Hm. lia. }
  unfold remove_metadata.
  destruct (remove_metadata_from_spec instrs (length instrs - 1))
    as [[Heq Hno]|(i & Hi & Hmi & Heq & Hno)].
  - left. split; [done|]. intros j.
    destruct (le_lt_dec (length instrs - 1) j); auto.
  - right. exists i. repeat split; [done|done|]. intros j Hj.
    destruct (le_lt_dec (length instrs - 1) j); [auto|]. apply Hno. lia.
Qed.

Lemma remove_metadata_no_marker instrs :
  (∀ j, marker_at instrs j = false) → remove_metadata instrs = instrs.
Proof.
  intros Hno.
  destruct (remove_metadata_spec instrs) as [[Heq _]|(i & Hmi & _)]; [done|].
  by rewrite Hno in Hmi.
Qed.

Lemma remove_metadata_shrinks instrs :
  remove_metadata instrs = instrs ∨
  (length (remove_metadata instrs) < length instrs)%nat.
Proof.
  destruct (remove_metadata_spec instrs) as [[Heq _]|(i & Hmi & Heq & _)];
    [by left|right].
  apply marker_at_lt in Hmi. rewrite Heq, length_take. lia.
Qed.

Lemma remove_metadata_sublist instrs : remove_metadata instrs `sublist_of` instrs.
Proof.
  destruct (remove_metadata_spec instrs) as [[-> _]|(i & _ & -> & _)];
    [done|apply sublist_take].
Qed.

Lemma two_markers_count instrs i j :
  i ≠ j → marker_at instrs i = true → marker_at instrs j = true →
  (2 ≤ marker_count instrs)%nat.
Proof.
  intros Hne Hi Hj. unfold marker_count.
  set (l := filter _ _).
  assert (Hnd : NoDup l) by (apply NoDup_filter, NoDup_seq).
  assert (Hin : ∀ k, marker_at instrs k = true → k ∈ l).
  { intros k Hk. apply list_elem_of_filter. split; [done|].
    apply elem_of_seq. apply marker_at_lt in Hk. lia. }
  apply Hin in Hi, Hj.
  destruct l as [|a [|b l]]; simpl; [by inversion Hi| |lia].
  apply list_elem_of_singleton in Hi, Hj. congruence.
Qed.

(** ** Self-balance fusion *)

Lemma replace_self_balance_loop_step instrs i out :
  (i < length instrs)%nat →
  replace_self_balance_loop instrs i out =
  (fused ← self_balance_at instrs i;
   if (fused : bool) then
     replace_self_balance_loop instrs (i + 4) (out ++ [SelfBalance])
   else
     a ← getitem instrs i;
     replace_self_balance_loop instrs (i + 1) (out ++ [EvmInsn a])).
Proof.
  intros Hlt. rewrite replace_self_balance_loop_equation_1.
  destruct (lt_dec _ _) as [H|H]; [|lia].
  apply replace_self_balance_loop_clause_1_equation_1.
Qed.

Lemma replace_self_balance_loop_done instrs i out :
  (length instrs ≤ i)%nat →
  replace_self_balance_loop instrs i out = Returned out.
Proof.
  intros Hge. rewrite replace_self_balance_loop_equation_1.
  destruct (lt_dec _ _) as [H|H]; [lia|].
  apply replace_self_balance_loop_clause_1_equation_2.
Qed.

Lemma getitem_Raised {A} (l : list A) i e :
  getitem l i = Raised e → e = IndexError ∧ (length l ≤ i)%nat.
Proof.
  unfold getitem. destruct (l !! i) eqn:H; [done|].
  intros [= <-]. split; [done|]. by apply lookup_ge_None.
Qed.

Lemma getitem_ge {A} (l : list A) i :
  (length l ≤ i)%nat → getitem l i = Raised IndexError.
Proof. intros H. unfold getitem. by rewrite lookup_ge_None_2. Qed.

(** The guard raises nothing but [IndexError]. *)
Lemma self_balance_at_Raised instrs i e :
  self_balance_at instrs i = Raised e → e = IndexError.
Proof.
  unfold self_balance_at.
  repeat (first
    [ match goal with
      | |- context [getitem ?l ?j] =>
          let H := fresh in
          destruct (getitem l j) as [?|?] eqn:H;
          [|apply getitem_Raised in H as [-> _]]
      end
    | match goal with
      | |- context [negb ?b] => destruct b
      end ]; cbn); congruence.
Qed.

(** It holds exactly on the four-instruction idiom. *)
Lemma self_balance_at_true instrs i :
  self_balance_at instrs i = Returned true ↔
  ∃ a b c d,
    instrs !! i = Some a ∧ instrs !! (i + 1)%nat = Some b ∧
    instrs !! (i + 2)%nat = Some c ∧ instrs !! (i + 3)%nat = Some d ∧
    self_balance_idiom a b c d.
Proof.
  unfold self_balance_at, self_balance_idiom, getitem. split.
  - destruct (instrs !! i) as [a|]; cbn; [|done].
    destruct (String.eqb_spec (name a) "ADDRESS"); cbn; [|done].
    destruct (instrs !! (i + 1)%nat) as [b|]; cbn; [|done].
    destruct (String.eqb_spec (name b) "PUSH20"); cbn; [|done].
    case_bool_decide; cbn; [|done].
    destruct (instrs !! (i + 2)%nat) as [c|]; cbn; [|done].
    destruct (String.eqb_spec (name c) "AND"); cbn; [|done].
    destruct (instrs !! (i + 3)%nat) as [d|]; cbn; [|done].
    destruct (String.eqb_spec (name d) "BALANCE"); [|done].
    intros _. by exists a, b, c, d.
  - intros (a & b & c & d & -> & -> & -> & -> & Ha & Hb & Ho & Hc & Hd).
    cbn. rewrite Ha, Hb, Hc, Hd. cbn.
    by rewrite bool_decide_eq_true_2.
Qed.

(** An [ADDRESS] in the last position makes the guard read past the end. *)
Lemma self_balance_at_last instrs i a :
  instrs !! i = Some a → name a = "ADDRESS" → (i + 1)%nat = length instrs →
  self_balance_at instrs i = Raised IndexError.
Proof.
  intros Hi Ha Hlen. unfold self_balance_at.
  rewrite (getitem_Some _ _ _ Hi). cbn. rewrite Ha. cbn.
  rewrite (getitem_ge instrs (i + 1)) by lia. reflexivity.
Qed.

Lemma replace_self_balance_loop_last_address instrs a :
  last instrs = Some a → name a = "ADDRESS" →
  ∀ n i out,
    (length instrs - i = n)%nat → (i < length instrs)%nat →
    replace_self_balance_loop instrs i out = Raised IndexError.
Proof.
  intros Hlast Ha n.
  rewrite last_lookup in Hlast.
  induction n as [n IH] using lt_wf_ind. intros i out Hn Hlt.
  rewrite replace_self_balance_loop_step by done.
  destruct (self_balance_at instrs i) as [[|]|e] eqn:Hs; cbn.
  - apply self_balance_at_true in Hs
      as (a0 & b & c & d & H0 & H1 & H2 & H3 & _ & _ & _ & _ & Hd).
    assert ((i + 3)%nat ≠ Nat.pred (length instrs)).
    { intros Heq. rewrite Heq in H3. congruence. }
    apply lookup_lt_Some in H3.
    apply (IH (length instrs - (i + 4))%nat); lia.
  - destruct (lookup_lt_is_Some_2 instrs i Hlt) as [a0 H0].
    rewrite (getitem_Some _ _ _ H0). cbn.
    destruct (decide ((i + 1)%nat = length instrs)) as [Heq|Hne].
    + replace (Nat.pred (length instrs)) with i in Hlast by lia.
      assert (a0 = a) by congruence. subst a0.
      rewrite (self_balance_at_last instrs i a) in Hs by done. done.
    + apply (IH (length instrs - (i + 1))%nat); lia.
  - by apply self_balance_at_Raised in Hs as ->.
Qed.

(** What the loop returns, when it returns: the instructions from [i] on,
    unchanged or fewer, with no jump destination added. *)
Lemma replace_self_balance_loop_inv instrs :
  ∀ n i out res,
    (length instrs - i = n)%nat → (i ≤ length instrs)%nat →
    replace_self_balance_loop instrs i out = Returned res →
    ∃ tail, res = out ++ tail ∧
      (tail = EvmInsn <$> drop i instrs ∨
       (length tail < length instrs - i)%nat) ∧
      jumpdests tail `sublist_of` (pc <$> drop i instrs).
Proof.
  induction n as [n IH] using lt_wf_ind. intros i out res Hn Hle Hres.
  destruct (decide (i = length instrs)) as [->|Hne].
  - rewrite replace_self_balance_loop_done in Hres by done.
    injection Hres as <-. exists []. rewrite app_nil_r, drop_all.
    split; [done|]. split; [by left|done].
  - rewrite replace_self_balance_loop_step in Hres by lia.
    destruct (self_balance_at instrs i) as [[|]|e] eqn:Hs; cbn in Hres;
      [| |done].
    + apply self_balance_at_true in Hs
        as (a0 & b & c & d & H0 & H1 & H2 & H3 & _).
      apply lookup_lt_Some in H3.
      apply (IH (length instrs - (i + 4))%nat) in Hres
        as (tail & -> & Hlen & Hsub); [|lia..].
      exists (SelfBalance :: tail). rewrite <- app_assoc. split; [done|].
      split.
      * right. simpl. destruct Hlen as [->|Hlen];
          [rewrite length_fmap, length_drop|]; lia.
      * simpl. etrans; [done|]. apply fmap_sublist.
        rewrite <- drop_drop. apply sublist_drop.
    + destruct (lookup_lt_is_Some_2 instrs i ltac:(lia)) as [a0 H0].
      rewrite (getitem_Some _ _ _ H0) in Hres. cbn in Hres.
      apply (IH (length instrs - (i + 1))%nat) in Hres
        as (tail & -> & Hlen & Hsub); [|lia..].
      exists (EvmInsn a0 :: tail). rewrite <- app_assoc. split; [done|].
      rewrite (drop_S _ _ _ H0). rewrite Nat.add_1_r in Hlen, Hsub.
      split.
      * destruct Hlen as [->|Hlen]; [by left|right; simpl; lia].
      * simpl. destruct (String.eqb (name a0) "JUMPDEST").
        -- by apply sublist_skip.
        -- by apply sublist_cons.
Qed.

(** Where the guard holds nowhere, the loop copies the instructions. *)
Lemma replace_self_balance_loop_no_idiom instrs :
  (∀ j, self_balance_at instrs j ≠ Returned true) →
  ∀ n i out res,
    (length instrs - i = n)%nat → (i ≤ length instrs)%nat →
    replace_self_balance_loop instrs i out = Returned res →
    res = out ++ (EvmInsn <$> drop i instrs).
Proof.
  intros Hno n.
  induction n as [n IH] using lt_wf_ind. intros i out res Hn Hle Hres.
  destruct (decide (i = length instrs)) as [->|Hne].
  - rewrite replace_self_balance_loop_done in Hres by done.
    injection Hres as <-. by rewrite drop_all, app_nil_r.
  - rewrite replace_self_balance_loop_step in Hres by lia.
    destruct (self_balance_at instrs i) as [[|]|e] eqn:Hs; cbn in Hres;
      [by apply Hno in Hs| |done].
    destruct (lookup_lt_is_Some_2 instrs i ltac:(lia)) as [a0 H0].
    rewrite (getitem_Some _ _ _ H0) in Hres. cbn in Hres.
    apply (IH (length instrs - (i + 1))%nat) in Hres; [|lia..].
    rewrite Hres, <- app_assoc, (drop_S _ _ _ H0), Nat.add_1_r. done.
Qed.

(** The pass fires on the idiom only: a list it returns for an input without
    the idiom is the input. *)
Lemma replace_self_balance_no_idiom instrs res :
  (∀ j, self_balance_at instrs j ≠ Returned true) →
  replace_self_balance instrs = Returned res →
  res = EvmInsn <$> instrs.
Proof.
  intros Hno H.
  apply (replace_self_balance_loop_no_idiom instrs Hno (length instrs))
    in H; [|lia..].
  by rewrite drop_0 in H.
Qed.

Lemma replace_self_balance_spec instrs res :
  replace_self_balance instrs = Returned res →
  (res = EvmInsn <$> instrs ∨ (length res < length instrs)%nat) ∧
  jumpdests res `sublist_of` (pc <$> instrs).
Proof.
  intros H.
  apply (replace_self_balance_loop_inv instrs (length instrs)) in H
    as (tail & -> & Hlen & Hsub); [|lia..].
  rewrite drop_0, Nat.sub_0_r in *. done.
Qed.

Lemma normalize_spec raw code_ :
  normalize raw = Returned code_ →
  (code_ = EvmInsn <$> raw ∨ (length code_ < length raw)%nat) ∧
  (NoDup (pc <$> raw) → NoDup (jumpdests code_)).
Proof.
  unfold normalize. intros [Hlen Hsub]%replace_self_balance_spec. split.
  - destruct (remove_metadata_shrinks raw) as [Heq|Hlt].
    + by rewrite Heq in Hlen.
    + right. destruct Hlen as [->|Hlen]; [rewrite length_fmap|]; lia.
  - intros Hnd. eapply sublist_NoDup; [|done].
    eapply sublist_NoDup; [done|].
    apply fmap_sublist, remove_metadata_sublist.
Qed.

(** ** The global dispatch tables *)

Lemma sorted_contracts_Sorted contracts :
  Sorted Z.le (sorted_contracts contracts).*1.
Proof. apply sorted_by_Sorted. Qed.

Lemma sorted_contracts_NoDup contracts :
  NoDup (sorted_contracts contracts).*1.
Proof.
  unfold sorted_contracts. rewrite sorted_by_Permutation.
  apply NoDup_fst_map_to_list.
Qed.

Lemma sorted_contracts_elem_of contracts contract raw :
  (contract, raw) ∈ sorted_contracts contracts ↔
  contracts !! contract = Some raw.
Proof.
  unfold sorted_contracts. rewrite sorted_by_elem_of.
  apply elem_of_map_to_list.
Qed.

Lemma code_sizes_keys contracts :
  (code_sizes contracts).*1 = (sorted_contracts contracts).*1.
Proof. unfold code_sizes. rewrite <- list_fmap_compose. done. Qed.

Lemma contract_dispatch_keys contracts :
  (contract_dispatch contracts).*1 = (sorted_contracts contracts).*1.
Proof. unfold contract_dispatch. rewrite <- list_fmap_compose. done. Qed.

Lemma code_sizes_lookup contracts contract raw :
  contracts !! contract = Some raw →
  lookup_result contract (code_sizes contracts) =
  VInt (Z.of_nat (length raw)).
Proof.
  intros Hc. apply lookup_result_present.
  - rewrite code_sizes_keys. apply sorted_contracts_NoDup.
  - apply sorted_contracts_elem_of in Hc. unfold code_sizes.
    apply list_elem_of_fmap. by exists (contract, raw).
Qed.

Lemma code_sizes_nonempty contracts contract raw :
  contracts !! contract = Some raw → code_sizes contracts ≠ [].
Proof.
  intros Hc%sorted_contracts_elem_of Hnil. unfold code_sizes in Hnil.
  apply fmap_nil_inv in Hnil. rewrite Hnil in Hc. by inversion Hc.
Qed.

Lemma run_op_codesize contract_id code_ code_size dispatch instr :
  name instr = "CODESIZE" →
  run_op contract_id code_ code_size dispatch (EvmInsn instr) =
  Returned [OpPush (VInt (Z.of_nat (length code_)))].
Proof. intros Hn. unfold run_op, run_op_evm. rewrite Hn. reflexivity. Qed.

Lemma run_op_extcodesize contract_id code_ lookup dispatch instr :
  name instr = "EXTCODESIZE" →
  run_op contract_id code_ (Returned lookup) dispatch (EvmInsn instr) =
  Returned (lookup ++ [OpDup0; OpTnewn 0; OpEq; OpIfElse [OpHalt] []]).
Proof. intros Hn. unfold run_op, run_op_evm. rewrite Hn. reflexivity. Qed.

(** ** Untranslated mnemonics *)

Lemma run_op_untranslated contract_id code_ code_size dispatch i :
  translated (name i) = false →
  run_op contract_id code_ code_size dispatch (EvmInsn i) = unhandled i.
Proof.
  unfold translated, translated_names. cbn [existsb]. intros H.
  repeat match goal with
         | H : _ || _ = false |- _ => apply orb_false_elim in H as [? ?]
         end.
  unfold run_op, run_op_evm. cbv zeta.
  repeat match goal with
         | H : String.eqb _ _ = false |- _ => rewrite H; clear H
         end.
  reflexivity.
Qed.

Lemma compile_blocks_app contract_id code_ code_size dispatch l1 l2 :
  compile_blocks contract_id code_ code_size dispatch (l1 ++ l2) =
  (b1 ← compile_blocks contract_id code_ code_size dispatch l1;
   b2 ← compile_blocks contract_id code_ code_size dispatch l2;
   Returned (b1 ++ b2)).
Proof.
  induction l1 as [|x l1 IH]; simpl.
  - by destruct (compile_blocks _ _ _ _ l2).
  - destruct (run_op _ _ _ _ x); cbn; [|done].
    rewrite IH. destruct (compile_blocks _ _ _ _ l1); cbn; [|done].
    by destruct (compile_blocks _ _ _ _ l2).
Qed.

(** * Main results *)

(** C1 (the code at the input where the claim fails).  For the empty table
    [make_bst_lookup] returns [handle_bad_jump], which pushes the sentinel and
    does not consume the lookup key: the key stays on the stack below the
    sentinel, where every non-empty table leaves one value in its place. *)
Theorem make_bst_lookup_empty_keeps_key :
  ∀ key rest,
    make_bst_lookup [] [] = Returned [OpTnewn 0] ∧
    exec [OpTnewn 0] (VInt key :: rest) =
    Running (sentinel :: VInt key :: rest).
Proof. intros key rest. split; [apply make_bst_lookup_empty|reflexivity]. Qed.

(** C2.  For a table sorted by key with pairwise-distinct keys, the block
    [make_bst_lookup] emits compares the lookup key, on its longest path,
    with exactly ceil(log2(n + 1)) distinct table keys. *)
Theorem make_bst_lookup_comparison_depth (items : list entry) :
  Sorted Z.le items.*1 → NoDup items.*1 →
  ∃ c, make_bst_lookup items items = Returned c ∧
       comparison_depth c = Nat.log2_up (length items + 1).
Proof.
  intros _ Hnd.
  destruct (make_bst_lookup_depth_aux items) as (c & Hc & Hd).
  exists c. split.
  - specialize (Hc []). by rewrite app_nil_r in Hc.
  - by apply Hd.
Qed.

Lemma make_bst_lookup_comparison_depth_witness :
  Sorted Z.le four_entries.*1 ∧ NoDup four_entries.*1 ∧
  ∃ c, make_bst_lookup four_entries four_entries = Returned c ∧
       comparison_depth c = Nat.log2_up (length four_entries + 1).
Proof.
  assert (Hs : Sorted Z.le four_entries.*1)
    by (repeat constructor; vm_compute; discriminate).
  assert (Hn : NoDup four_entries.*1)
    by (apply (bool_decide_unpack _); vm_compute; exact I).
  exact (conj Hs (conj Hn
           (make_bst_lookup_comparison_depth four_entries Hs Hn))).
Defined.

(** C3.  The block of a [JUMP] or [JUMPI] starts with the lookup of the
    destination in the contract's jump table.  A destination that is the
    program counter of a [JUMPDEST] of the contract resolves to that
    [JUMPDEST]'s label: [JUMP] jumps to it, [JUMPI] pops the condition and
    jumps when it is non-zero; the label is the one the block of that
    [JUMPDEST] defines.  Any other destination makes the lookup yield
    the sentinel and the block halts.  With jump destinations 10, 20 and 30,
    a jump to 20 reaches [jumpdest_<id>_20] and a jump to 15 halts. *)
Theorem jump_resolves_or_halts contract_id code_ code_size :
  NoDup (jumpdests code_) →
  ∃ lookup,
    dispatch_of contract_id code_ = Returned lookup ∧
    let jump := lookup ++ [OpDup0; OpTnewn 0; OpEq; OpIfElse [OpHalt] [OpJump]] in
    let jumpi := lookup ++ [OpDup0; OpTnewn 0; OpEq; OpIfElse [OpHalt] [OpCjump]] in
    (∀ instr, name instr = "JUMP" →
       run_op contract_id code_ code_size (dispatch_of contract_id code_)
         (EvmInsn instr) = Returned jump) ∧
    (∀ instr, name instr = "JUMPI" →
       run_op contract_id code_ code_size (dispatch_of contract_id code_)
         (EvmInsn instr) = Returned jumpi) ∧
    (∀ instr, name instr = "JUMPDEST" →
       run_op contract_id code_ code_size (dispatch_of contract_id code_)
         (EvmInsn instr) =
       Returned [OpSetLabel (jumpdest_label contract_id (pc instr))]) ∧
    (∀ dest rest, dest ∈ jumpdests code_ →
       exec lookup (VInt dest :: rest) =
         Running (VLabel (jumpdest_label contract_id dest) :: rest) ∧
       exec jump (VInt dest :: rest) =
         Jumped (jumpdest_label contract_id dest) rest ∧
       ∀ cond, exec jumpi (VInt dest :: VInt cond :: rest) =
         if cond =? 0 then Running rest
         else Jumped (jumpdest_label contract_id dest) rest) ∧
    (∀ dest rest, dest ∉ jumpdests code_ →
       ∃ s, exec lookup (VInt dest :: rest) = Running (sentinel :: s) ∧
            exec jump (VInt dest :: rest) = Halted (sentinel :: s) ∧
            exec jumpi (VInt dest :: rest) = Halted (sentinel :: s)) ∧
    (jumpdests code_ = [10; 20; 30] →
       exec jump [VInt 20] = Jumped (jumpdest_label contract_id 20) [] ∧
       ∃ s, exec jump [VInt 15] = Halted s).
Proof.
  intros Hnd.
  destruct (dispatch_of_exec contract_id code_ Hnd) as (lookup & Hl & Hex).
  exists lookup. split; [done|]. cbv zeta. rewrite Hl.
  assert (Hhit : ∀ dest rest, dest ∈ jumpdests code_ →
    exec lookup (VInt dest :: rest) =
      Running (VLabel (jumpdest_label contract_id dest) :: rest) ∧
    exec (lookup ++ [OpDup0; OpTnewn 0; OpEq; OpIfElse [OpHalt] [OpJump]])
      (VInt dest :: rest) = Jumped (jumpdest_label contract_id dest) rest ∧
    ∀ cond,
      exec (lookup ++ [OpDup0; OpTnewn 0; OpEq; OpIfElse [OpHalt] [OpCjump]])
        (VInt dest :: VInt cond :: rest) =
      if cond =? 0 then Running rest
      else Jumped (jumpdest_label contract_id dest) rest).
  { intros dest rest Hd. split; [by apply Hex|].
    split; [|intros cond]; rewrite exec_app, (proj1 (Hex dest _) Hd);
      [reflexivity|].
    simpl. by destruct (cond =? 0). }
  assert (Hmiss : ∀ dest rest, dest ∉ jumpdests code_ →
    ∃ s, exec lookup (VInt dest :: rest) = Running (sentinel :: s) ∧
      exec (lookup ++ [OpDup0; OpTnewn 0; OpEq; OpIfElse [OpHalt] [OpJump]])
        (VInt dest :: rest) = Halted (sentinel :: s) ∧
      exec (lookup ++ [OpDup0; OpTnewn 0; OpEq; OpIfElse [OpHalt] [OpCjump]])
        (VInt dest :: rest) = Halted (sentinel :: s)).
  { intros dest rest Hd. destruct (proj2 (Hex dest rest) Hd) as [s Hs].
    exists s. split; [done|]. rewrite !exec_app, Hs. by split. }
  split; [intros instr Hn; by apply run_op_jump|].
  split; [intros instr Hn; by apply run_op_jumpi|].
  split; [intros instr Hn; by apply run_op_jumpdest|].
  split; [done|]. split; [done|].
  intros Hpcs. split.
  - apply Hhit. rewrite Hpcs. right. left.
  - destruct (Hmiss 15 []) as (s & _ & Hs & _); [|by eexists].
    rewrite Hpcs. intros Hin. apply list_elem_of_In in Hin. simpl in Hin.
    intuition discriminate.
Qed.

Lemma jump_resolves_or_halts_witness :
  NoDup (jumpdests (EvmInsn <$> three_jumpdests)) ∧
  ∃ lookup,
    dispatch_of 7 (EvmInsn <$> three_jumpdests) = Returned lookup ∧
    exec (lookup ++ [OpDup0; OpTnewn 0; OpEq; OpIfElse [OpHalt] [OpJump]])
      [VInt 20] = Jumped "jumpdest_7_20" [].
Proof.
  assert (Hn : NoDup (jumpdests (EvmInsn <$> three_jumpdests)))
    by (apply (bool_decide_unpack _); vm_compute; exact I).
  split; [exact Hn|].
  destruct (jump_resolves_or_halts 7 (EvmInsn <$> three_jumpdests)
              (Returned []) Hn) as (lookup & Hl & _ & _ & _ & _ & _ & Hex).
  exists lookup. split; [exact Hl|].
  exact (proj1 (Hex eq_refl)).
Defined.

(** C4 (the code at an input where the claim fails).  The list deviates from
    the idiom in one instruction, its last, which is a second [ADDRESS]
    instead of [BALANCE].  The pass does not leave it unchanged: at that last
    [ADDRESS] the guard reads the cell after the end and [IndexError] is
    raised.  On the exact idiom the pass returns the single fused instruction,
    and a lone [BALANCE] is refused by the translator. *)
Theorem replace_self_balance_deviation_raises :
  replace_self_balance deviating_idiom = Raised IndexError ∧
  replace_self_balance exact_idiom = Returned [SelfBalance] ∧
  ∀ contract_id code_ code_size dispatch,
    run_op contract_id code_ code_size dispatch
      (EvmInsn (plain "BALANCE" 0x31 0)) =
    Raised (Exception "Unhandled instruction BALANCE").
Proof. repeat split. Qed.

(** C5 (counterexample).  The error raised for an untranslated mnemonic does
    not name the program counter: for [BALANCE] at program counter 5 the
    message is "Unhandled instruction BALANCE". *)
Lemma unhandled_error_omits_pc :
  ¬ (∀ contract_id code_ code_size dispatch i,
       translated (name i) = false →
       ∃ msg,
         run_op contract_id code_ code_size dispatch (EvmInsn i) =
           Raised (Exception msg) ∧
         contains (name i) msg = true ∧
         contains (str_int (pc i)) msg = true).
Proof.
  intros H.
  destruct (H 0 [] (Returned []) (Returned []) (plain "BALANCE" 0x31 5))
    as (msg & Hmsg & _ & Hpc); [reflexivity|].
  vm_compute in Hmsg. injection Hmsg as <-.
  vm_compute in Hpc. discriminate.
Qed.

(** C5 (amended).  An instruction whose mnemonic has no branch in [run_op]
    makes the translation raise, at that instruction, the exception
    "Unhandled instruction <instr>", where <instr> is the mnemonic followed by
    the operand when there is one; the message is the same at every program
    counter.  Nothing is returned: the blocks compiled before are dropped with
    the exception, and so is the contract.  The failure is a raised
    exception, not emitted code that halts. *)
Theorem untranslated_instruction_raises
  contract_id code_size label raw pre i post bs :
  translated (name i) = false →
  normalize raw = Returned (pre ++ EvmInsn i :: post) →
  compile_blocks contract_id (pre ++ EvmInsn i :: post) code_size
    (dispatch_of contract_id (pre ++ EvmInsn i :: post)) pre = Returned bs →
  let msg := "Unhandled instruction " +:+ str_instr i in
  (∀ cid' code' size' dispatch' pc',
     run_op cid' code' size' dispatch'
       (EvmInsn {| name := name i; opcode := opcode i;
                   operand := operand i; pc := pc' |}) =
     Raised (Exception msg)) ∧
  generate_contract_code label raw contract_id code_size =
    Raised (Exception msg) ∧
  (operand i = None → msg = "Unhandled instruction " +:+ name i).
Proof.
  intros Hu Hnorm Hpre. cbv zeta. repeat split.
  - intros. by rewrite run_op_untranslated.
  - unfold generate_contract_code. rewrite Hnorm. cbn.
    rewrite compile_blocks_app, Hpre.
    cbn [mbind outcome_bind compile_blocks].
    by rewrite run_op_untranslated.
  - intros Hop. unfold str_instr. by rewrite Hop.
Qed.

Lemma untranslated_instruction_raises_witness :
  translated "BALANCE" = false ∧
  generate_contract_code "contract_entry_1"
    [plain "STOP" 0x00 0; plain "BALANCE" 0x31 1; plain "STOP" 0x00 2]
    1 (Returned []) =
  Raised (Exception "Unhandled instruction BALANCE").
Proof.
  split; [reflexivity|].
  exact (proj1 (proj2
    (untranslated_instruction_raises 1 (Returned []) "contract_entry_1"
       [plain "STOP" 0x00 0; plain "BALANCE" 0x31 1; plain "STOP" 0x00 2]
       [EvmInsn (plain "STOP" 0x00 0)] (plain "BALANCE" 0x31 1)
       [EvmInsn (plain "STOP" 0x00 2)]
       [[OpExtern "execution.stop" []]]
       eq_refl eq_refl eq_refl))).
Defined.

(** C6 (counterexample).  Stripping is not idempotent on a list in which the
    marker pair occurs twice: the first pass cuts at the second pair, the
    next pass cuts at the first. *)
Lemma remove_metadata_twice_differs :
  remove_metadata (remove_metadata two_markers) ≠ remove_metadata two_markers.
Proof. vm_compute. discriminate. Qed.

(** C6 (amended).  On an instruction list in which the marker pair
    (0xA1, 0x65) starts at no more than one position, stripping twice yields
    the same list as stripping once. *)
Theorem remove_metadata_idempotent_single_marker instrs :
  (marker_count instrs ≤ 1)%nat →
  remove_metadata (remove_metadata instrs) = remove_metadata instrs.
Proof.
  intros Hcount.
  destruct (remove_metadata_spec instrs) as [[Heq _]|(i & Hmi & Heq & _)].
  - by rewrite !Heq.
  - rewrite Heq. apply remove_metadata_no_marker. intros j.
    destruct (marker_at (take i instrs) j) eqn:Hj; [|done].
    apply marker_at_take in Hj as [Hlt Hmj].
    pose proof (two_markers_count instrs i j ltac:(lia) Hmi Hmj). lia.
Qed.

Lemma remove_metadata_idempotent_single_marker_witness :
  (marker_count one_marker ≤ 1)%nat ∧
  remove_metadata (remove_metadata one_marker) = remove_metadata one_marker.
Proof.
  assert (H : (marker_count one_marker ≤ 1)%nat) by (vm_compute; lia).
  exact (conj H (remove_metadata_idempotent_single_marker one_marker H)).
Defined.

(** C7 (counterexample).  The block emitted for a one-entry table is not the
    leaf the specification describes, and the two behave differently: on a
    key that misses, the described leaf leaves the key under the sentinel,
    the emitted block leaves the sentinel alone. *)
Lemma leaf_1_differs_from_spec_leaf :
  ∃ c, make_bst_lookup [(5, VLabel "X")] [(5, VLabel "X")] = Returned c ∧
       c ≠ spec_leaf_1 5 (VLabel "X") ∧
       exec c [VInt 7] = Running [sentinel] ∧
       exec (spec_leaf_1 5 (VLabel "X")) [VInt 7] =
       Running [sentinel; VInt 7].
Proof.
  exists (leaf_1_code 5 (VLabel "X")).
  split; [reflexivity|]. split; [discriminate|]. split; reflexivity.
Qed.

(** C7 (amended).  For a table with exactly one entry the emitted block
    pushes the entry's key and compares it with the lookup key, which the
    comparison consumes; no copy of the key is made and nothing is discarded.
    If the two are equal the block pushes the entry's target, otherwise the
    sentinel. *)
Theorem make_bst_lookup_single_entry (k : Z) (t : value) :
  (∀ extra,
     make_bst_lookup [(k, t)] ([(k, t)] ++ extra) =
     Returned [OpPush (VInt k); OpEq; OpIfElse [OpPush t] [OpTnewn 0]]) ∧
  ∀ key rest,
    exec [OpPush (VInt k); OpEq; OpIfElse [OpPush t] [OpTnewn 0]]
      (VInt key :: rest) =
    Running ((if key =? k then t else sentinel) :: rest).
Proof.
  split.
  - intros extra. rewrite make_bst_lookup_leaf by (simpl; lia). reflexivity.
  - intros key rest. simpl. rewrite (Z.eqb_sym k key).
    by destruct (key =? k).
Qed.

(** C10.  On an instruction list whose last instruction is [ADDRESS],
    [replace_self_balance] raises [IndexError] and returns no list. *)
Theorem replace_self_balance_last_address instrs a :
  last instrs = Some a → name a = "ADDRESS" →
  replace_self_balance instrs = Raised IndexError.
Proof.
  intros Hlast Ha. unfold replace_self_balance.
  apply (replace_self_balance_loop_last_address instrs a Hlast Ha
           (length instrs - 0)%nat); [done|].
  destruct instrs; [done|simpl; lia].
Qed.

Lemma replace_self_balance_last_address_witness :
  last [plain "STOP" 0x00 0; plain "ADDRESS" 0x30 1] =
    Some (plain "ADDRESS" 0x30 1) ∧
  name (plain "ADDRESS" 0x30 1) = "ADDRESS" ∧
  replace_self_balance [plain "STOP" 0x00 0; plain "ADDRESS" 0x30 1] =
    Raised IndexError.
Proof.
  exact (conj eq_refl (conj eq_refl
    (replace_self_balance_last_address
       [plain "STOP" 0x00 0; plain "ADDRESS" 0x30 1]
       (plain "ADDRESS" 0x30 1) eq_refl eq_refl))).
Defined.

Lemma compile_contracts_list code_size todo :
  ∀ impls dispatch_list impls' final,
    compile_contracts code_size todo impls dispatch_list =
      Returned (impls', final) →
    final = dispatch_list ++
            ((λ c, (c.1, VLabel (contract_entry_label c.1))) <$> todo).
Proof.
  induction todo as [|[contract raw] todo IH]; simpl;
    intros impls dl impls' final H.
  - injection H as _ <-. by rewrite app_nil_r.
  - destruct (generate_contract_code _ _ _ _); cbn in H; [|done].
    apply IH in H. by rewrite <- app_assoc in H.
Qed.

(** C8.  When [make_bst_lookup] receives them, the contract-entry list, the
    code-size list and a contract's jump table are sorted by key and their
    keys are pairwise distinct; for the jump table this uses that program
    counters are unique within the contract.  The contract-entry list is
    appended to afterwards (it ends up holding every contract twice), which
    does not change what the generator built from it emits. *)
Theorem dispatch_tables_sorted_unique
  (contracts : gmap Z (list Instruction)) contract_id raw code_ :
  contracts !! contract_id = Some raw →
  NoDup (pc <$> raw) →
  normalize raw = Returned code_ →
  (Sorted Z.le (contract_dispatch contracts).*1 ∧
   NoDup (contract_dispatch contracts).*1) ∧
  (Sorted Z.le (code_sizes contracts).*1 ∧
   NoDup (code_sizes contracts).*1) ∧
  (Sorted Z.le (jump_table contract_id code_).*1 ∧
   NoDup (jump_table contract_id code_).*1) ∧
  (∀ impls final,
     generate_evm_code contracts = Returned (impls, final) →
     final = contract_dispatch contracts ++ contract_dispatch contracts ∧
     dispatch_contract contracts final =
     dispatch_contract contracts (contract_dispatch contracts)).
Proof.
  intros Hc Hpc Hnorm. repeat split.
  - rewrite contract_dispatch_keys. apply sorted_contracts_Sorted.
  - rewrite contract_dispatch_keys. apply sorted_contracts_NoDup.
  - rewrite code_sizes_keys. apply sorted_contracts_Sorted.
  - rewrite code_sizes_keys. apply sorted_contracts_NoDup.
  - apply jump_table_sorted.
  - rewrite jump_table_keys. by apply (normalize_spec raw).
  - by apply compile_contracts_list in H.
  - apply compile_contracts_list in H. rewrite H.
    apply make_bst_lookup_grown.
Qed.

Lemma dispatch_tables_sorted_unique_witness :
  ({[1 := with_metadata]} : gmap Z (list Instruction)) !! 1 =
    Some with_metadata ∧
  NoDup (pc <$> with_metadata) ∧
  normalize with_metadata = Returned (EvmInsn <$> three_jumpdests) ∧
  Sorted Z.le (jump_table 1 (EvmInsn <$> three_jumpdests)).*1 ∧
  NoDup (jump_table 1 (EvmInsn <$> three_jumpdests)).*1.
Proof.
  assert (H1 : ({[1 := with_metadata]} : gmap Z (list Instruction)) !! 1 =
               Some with_metadata) by reflexivity.
  assert (H2 : NoDup (pc <$> with_metadata))
    by (apply (bool_decide_unpack _); vm_compute; exact I).
  assert (H3 : normalize with_metadata = Returned (EvmInsn <$> three_jumpdests))
    by reflexivity.
  split; [exact H1|]. split; [exact H2|]. split; [exact H3|].
  exact (proj1 (proj2 (proj2
    (dispatch_tables_sorted_unique {[1 := with_metadata]} 1 with_metadata
       (EvmInsn <$> three_jumpdests) H1 H2 H3)))).
Defined.

(** C9.  The code-size table maps a contract's id to the number of
    instructions the disassembler returned for it, so [EXTCODESIZE] of that id
    leaves this number on the stack, while [CODESIZE] inside the contract
    pushes the number of instructions left after [remove_metadata] and
    [replace_self_balance].  The second number is never larger, and it is
    strictly smaller as soon as the two passes changed the list. *)
Theorem extcodesize_counts_raw_instructions
  (contracts : gmap Z (list Instruction)) contract_id raw code_ dispatch
  instr_codesize instr_extcodesize :
  contracts !! contract_id = Some raw →
  normalize raw = Returned code_ →
  name instr_codesize = "CODESIZE" →
  name instr_extcodesize = "EXTCODESIZE" →
  lookup_result contract_id (code_sizes contracts) =
    VInt (Z.of_nat (length raw)) ∧
  run_op contract_id code_ (code_size_of contracts) dispatch
    (EvmInsn instr_codesize) =
    Returned [OpPush (VInt (Z.of_nat (length code_)))] ∧
  (∃ c,
     run_op contract_id code_ (code_size_of contracts) dispatch
       (EvmInsn instr_extcodesize) = Returned c ∧
     ∀ rest, exec c (VInt contract_id :: rest) =
             Running (VInt (Z.of_nat (length raw)) :: rest)) ∧
  (length code_ ≤ length raw)%nat ∧
  (code_ ≠ EvmInsn <$> raw → Z.of_nat (length code_) < Z.of_nat (length raw)).
Proof.
  intros Hc Hnorm Hcs Hext.
  pose proof (code_sizes_lookup _ _ _ Hc) as Hlk.
  destruct (normalize_spec _ _ Hnorm) as [Hlen _].
  split; [done|]. split; [by apply run_op_codesize|]. split; [|split].
  - destruct (make_bst_lookup_exec (code_sizes contracts) [])
      as (lookup & Hl & Hex).
    { by eapply code_sizes_nonempty. }
    { rewrite code_sizes_keys. apply sorted_contracts_Sorted. }
    { rewrite code_sizes_keys. apply sorted_contracts_NoDup. }
    rewrite app_nil_r in Hl. unfold code_size_of. rewrite Hl.
    eexists. split; [by apply run_op_extcodesize|].
    intros rest. rewrite exec_app, Hex, Hlk. reflexivity.
  - destruct Hlen as [->|Hlt]; [rewrite length_fmap|]; lia.
  - intros Hne. destruct Hlen as [->|Hlt]; [done|lia].
Qed.

Lemma extcodesize_counts_raw_instructions_witness :
  ({[1 := with_metadata]} : gmap Z (list Instruction)) !! 1 =
    Some with_metadata ∧
  normalize with_metadata = Returned (EvmInsn <$> three_jumpdests) ∧
  lookup_result 1 (code_sizes {[1 := with_metadata]}) = VInt 9 ∧
  run_op 1 (EvmInsn <$> three_jumpdests)
    (code_size_of {[1 := with_metadata]}) (Returned [])
    (EvmInsn (plain "CODESIZE" 0x38 0)) = Returned [OpPush (VInt 6)].
Proof.
  assert (H1 : ({[1 := with_metadata]} : gmap Z (list Instruction)) !! 1 =
               Some with_metadata) by reflexivity.
  assert (H2 : normalize with_metadata = Returned (EvmInsn <$> three_jumpdests))
    by reflexivity.
  split; [exact H1|]. split; [exact H2|].
  destruct (extcodesize_counts_raw_instructions {[1 := with_metadata]} 1
              with_metadata (EvmInsn <$> three_jumpdests) (Returned [])
              (plain "CODESIZE" 0x38 0) (plain "EXTCODESIZE" 0x3b 1)
              H1 H2 eq_refl eq_refl) as (Ha & Hb & _).
  split; [exact Ha|exact Hb].
Defined.

(** * Further properties *)

(** ** The fusion pass, by cases on the head of the list *)

Lemma replace_self_balance_loop_acc instrs :
  ∀ n i out,
    (length instrs - i = n)%nat →
    replace_self_balance_loop instrs i out =
    (res ← replace_self_balance_loop instrs i []; Returned (out ++ res)).
Proof.
  induction n as [n IH] using lt_wf_ind. intros i out Hn.
  destruct (le_lt_dec (length instrs) i) as [Hge|Hlt].
  - rewrite !replace_self_balance_loop_done by done. cbn.
    by rewrite app_nil_r.
  - rewrite !(replace_self_balance_loop_step instrs i) by done.
    destruct (self_balance_at instrs i) as [[|]|e]; cbn; [| |done].
    + pose proof (IH (length instrs - (i + 4))%nat ltac:(lia) (i + 4)%nat)
        as IH4.
      rewrite (IH4 (out ++ [SelfBalance]) eq_refl).
      rewrite (IH4 [SelfBalance] eq_refl).
      destruct (replace_self_balance_loop instrs (i + 4) []); cbn; [|done].
      by rewrite <- app_assoc.
    + destruct (getitem instrs i) as [a|e]; cbn; [|done].
      pose proof (IH (length instrs - (i + 1))%nat ltac:(lia) (i + 1)%nat)
        as IH1.
      rewrite (IH1 (out ++ [EvmInsn a]) eq_refl).
      rewrite (IH1 [EvmInsn a] eq_refl).
      destruct (replace_self_balance_loop instrs (i + 1) []); cbn; [|done].
      by rewrite <- app_assoc.
Qed.

Lemma getitem_drop {A} (l : list A) k i :
  getitem (drop k l) i = getitem l (k + i).
Proof. unfold getitem. by rewrite lookup_drop. Qed.

Lemma self_balance_at_drop instrs k i :
  self_balance_at (drop k instrs) i = self_balance_at instrs (k + i).
Proof.
  unfold self_balance_at.
  by rewrite !getitem_drop, !Nat.add_assoc.
Qed.

Lemma replace_self_balance_loop_drop instrs k :
  ∀ n i,
    (length instrs - (k + i) = n)%nat →
    replace_self_balance_loop (drop k instrs) i [] =
    replace_self_balance_loop instrs (k + i) [].
Proof.
  induction n as [n IH] using lt_wf_ind. intros i Hn.
  destruct (le_lt_dec (length instrs) (k + i)) as [Hge|Hlt].
  - rewrite !replace_self_balance_loop_done; [done|lia|].
    rewrite length_drop. lia.
  - rewrite (replace_self_balance_loop_step instrs) by done.
    rewrite (replace_self_balance_loop_step (drop k instrs))
      by (rewrite length_drop; lia).
    rewrite self_balance_at_drop, getitem_drop.
    destruct (self_balance_at instrs (k + i)) as [[|]|e]; cbn; [| |done].
    + rewrite (replace_self_balance_loop_acc (drop k instrs) _ (i + 4)%nat
                 [SelfBalance] eq_refl).
      rewrite (replace_self_balance_loop_acc instrs _ (k + i + 4)%nat
                 [SelfBalance] eq_refl).
      rewrite (IH (length instrs - (k + (i + 4)))%nat ltac:(lia) (i + 4)%nat
                 eq_refl).
      by rewrite Nat.add_assoc.
    + destruct (getitem instrs (k + i)) as [a|e]; cbn; [|done].
      rewrite (replace_self_balance_loop_acc (drop k instrs) _ (i + 1)%nat
                 [EvmInsn a] eq_refl).
      rewrite (replace_self_balance_loop_acc instrs _ (k + i + 1)%nat
                 [EvmInsn a] eq_refl).
      rewrite (IH (length instrs - (k + (i + 1)))%nat ltac:(lia) (i + 1)%nat
                 eq_refl).
      by rewrite Nat.add_assoc.
Qed.

(** One round of the loop, seen from the list: the head is copied, or the
    four-instruction idiom at the head is fused, and the pass goes on with
    what follows. *)
Lemma replace_self_balance_cons a rest :
  replace_self_balance (a :: rest) =
  (fused ← self_balance_at (a :: rest) 0;
   if (fused : bool) then
     res ← replace_self_balance (drop 3 rest); Returned (SelfBalance :: res)
   else
     res ← replace_self_balance rest; Returned (EvmInsn a :: res)).
Proof.
  unfold replace_self_balance.
  rewrite replace_self_balance_loop_step by (simpl; lia).
  destruct (self_balance_at (a :: rest) 0) as [[|]|e]; cbn; [| |done].
  - rewrite (replace_self_balance_loop_acc (a :: rest) _ 4%nat
               [SelfBalance] eq_refl).
    pose proof (replace_self_balance_loop_drop (a :: rest) 4 _ 0 eq_refl)
      as Hd.
    cbn [skipn Nat.add] in Hd. by rewrite <- Hd.
  - rewrite (replace_self_balance_loop_acc (a :: rest) _ 1%nat
               [EvmInsn a] eq_refl).
    pose proof (replace_self_balance_loop_drop (a :: rest) 1 _ 0 eq_refl)
      as Hd.
    cbn [skipn Nat.add] in Hd. by rewrite <- Hd.
Qed.

Lemma replace_self_balance_nil : replace_self_balance [] = Returned [].
Proof.
  unfold replace_self_balance.
  by rewrite replace_self_balance_loop_done.
Qed.

(** Induction over the rounds of a run that returns. *)
Lemma replace_self_balance_ind (P : list Instruction → list insn → Prop) :
  P [] [] →
  (∀ a rest res,
     self_balance_at (a :: rest) 0 = Returned false →
     replace_self_balance rest = Returned res →
     P rest res → P (a :: rest) (EvmInsn a :: res)) →
  (∀ a b c d post res,
     self_balance_idiom a b c d →
     replace_self_balance post = Returned res →
     P post res → P (a :: b :: c :: d :: post) (SelfBalance :: res)) →
  ∀ instrs res, replace_self_balance instrs = Returned res → P instrs res.
Proof.
  intros Pnil Pcopy Pfuse instrs.
  induction instrs as [instrs IH] using (induction_ltof1 _ (@length _)).
  unfold ltof in IH. intros res Hres.
  destruct instrs as [|a rest].
  - rewrite replace_self_balance_nil in Hres. by injection Hres as <-.
  - rewrite replace_self_balance_cons in Hres.
    destruct (self_balance_at (a :: rest) 0) as [[|]|e] eqn:Hg;
      cbn in Hres; [| |done].
    + apply self_balance_at_true in Hg
        as (a' & b & c & d & H0 & H1 & H2 & H3 & Hid).
      destruct rest as [|b' [|c' [|d' post]]]; try done.
      cbn in H0, H1, H2, H3.
      inversion H0; inversion H1; inversion H2; inversion H3; subst.
      change (drop 3 (?x :: ?y :: ?z :: post)) with post in Hres.
      destruct (replace_self_balance post) as [r|] eqn:Hp; cbn in Hres;
        [|done].
      injection Hres as <-.
      apply Pfuse; [done|done|]. apply IH; [simpl; lia|done].
    + destruct (replace_self_balance rest) as [r|] eqn:Hp; cbn in Hres;
        [|done].
      injection Hres as <-.
      apply Pcopy; [done|done|]. apply IH; [simpl; lia|done].
Qed.

Lemma self_balance_at_not_address a rest :
  name a ≠ "ADDRESS" → self_balance_at (a :: rest) 0 = Returned false.
Proof.
  intros Hn. unfold self_balance_at. cbn.
  by destruct (String.eqb_spec (name a) "ADDRESS").
Qed.

Lemma self_balance_at_S a rest i :
  self_balance_at (a :: rest) (S i) = self_balance_at rest i.
Proof. exact (eq_sym (self_balance_at_drop (a :: rest) 1 i)). Qed.

(** The guard raises only at an [ADDRESS] with fewer than three
    instructions after it. *)
Lemma self_balance_at_Raised_inv instrs i e :
  (i < length instrs)%nat →
  self_balance_at instrs i = Raised e →
  ∃ a, instrs !! i = Some a ∧ name a = "ADDRESS" ∧
       (length instrs ≤ i + 3)%nat.
Proof.
  intros Hlt. destruct (lookup_lt_is_Some_2 instrs i Hlt) as [a Ha].
  unfold self_balance_at. rewrite (getitem_Some _ _ _ Ha). cbn.
  destruct (String.eqb_spec (name a) "ADDRESS") as [Hn|]; cbn; [|done].
  intros H. exists a. split; [done|]. split; [done|].
  destruct (le_lt_dec (length instrs) (i + 3)) as [|Hroom]; [done|].
  exfalso.
  destruct (lookup_lt_is_Some_2 instrs (i + 1) ltac:(lia)) as [b Hb].
  destruct (lookup_lt_is_Some_2 instrs (i + 2) ltac:(lia)) as [c Hc].
  destruct (lookup_lt_is_Some_2 instrs (i + 3) ltac:(lia)) as [d Hd].
  rewrite (getitem_Some _ _ _ Hb), (getitem_Some _ _ _ Hc),
    (getitem_Some _ _ _ Hd) in H. cbn in H.
  destruct (negb _); [done|]. destruct (negb _); [done|].
  by destruct (negb _).
Qed.

Lemma replace_self_balance_returns_guard instrs res :
  replace_self_balance instrs = Returned res →
  ∀ i e, (i < length instrs)%nat → self_balance_at instrs i ≠ Raised e.
Proof.
  revert instrs res.
  apply (replace_self_balance_ind (λ instrs _,
    ∀ i e, (i < length instrs)%nat → self_balance_at instrs i ≠ Raised e)).
  - intros i e Hi. simpl in Hi. lia.
  - intros a rest res Hg _ IH i e Hi. destruct i as [|i].
    + by rewrite Hg.
    + rewrite self_balance_at_S. apply IH. simpl in Hi. lia.
  - intros a b c d post res (Ha & Hb & Ho & Hc & Hd) _ IH i e Hi.
    destruct i as [|[|[|[|i]]]].
    + assert (Ht : self_balance_at (a :: b :: c :: d :: post) 0 = Returned true)
        by (apply self_balance_at_true; by exists a, b, c, d).
      by rewrite Ht.
    + rewrite self_balance_at_S, self_balance_at_not_address; [done|].
      by rewrite Hb.
    + rewrite !self_balance_at_S, self_balance_at_not_address; [done|].
      by rewrite Hc.
    + rewrite !self_balance_at_S, self_balance_at_not_address; [done|].
      by rewrite Hd.
    + rewrite !self_balance_at_S. apply IH. simpl in Hi. lia.
Qed.

Lemma replace_self_balance_guard_returns instrs :
  (∀ i e, (i < length instrs)%nat → self_balance_at instrs i ≠ Raised e) →
  ∃ res, replace_self_balance instrs = Returned res.
Proof.
  induction instrs as [instrs IH] using (induction_ltof1 _ (@length _)).
  unfold ltof in IH. intros Hg.
  destruct instrs as [|a rest].
  - exists []. apply replace_self_balance_nil.
  - rewrite replace_self_balance_cons.
    destruct (self_balance_at (a :: rest) 0) as [[|]|e] eqn:H0; cbn.
    + apply self_balance_at_true in H0
        as (a' & b & c & d & _ & _ & _ & H3 & _).
      apply lookup_lt_Some in H3. simpl in H3.
      destruct (IH (drop 3 rest)) as [r Hr].
      * rewrite length_drop. simpl. lia.
      * intros i e Hi. rewrite length_drop in Hi.
        change (drop 3 rest) with (drop 4 (a :: rest)).
        rewrite self_balance_at_drop. apply Hg. simpl. lia.
      * rewrite Hr. by eexists.
    + destruct (IH rest) as [r Hr]; [simpl; lia| |rewrite Hr; by eexists].
      intros i e Hi. rewrite <- (self_balance_at_S a). apply Hg. simpl. lia.
    + exfalso. apply (Hg 0%nat e); [simpl; lia|done].
Qed.

Lemma replace_self_balance_Raised instrs e :
  replace_self_balance instrs = Raised e →
  e = IndexError ∧
  ∃ i, (i < length instrs)%nat ∧ self_balance_at instrs i = Raised IndexError.
Proof.
  induction instrs as [instrs IH] using (induction_ltof1 _ (@length _)).
  unfold ltof in IH. intros Hr.
  destruct instrs as [|a rest].
  - by rewrite replace_self_balance_nil in Hr.
  - rewrite replace_self_balance_cons in Hr.
    destruct (self_balance_at (a :: rest) 0) as [[|]|e'] eqn:H0; cbn in Hr.
    + apply self_balance_at_true in H0
        as (a' & b & c & d & _ & _ & _ & H3 & _).
      apply lookup_lt_Some in H3. simpl in H3.
      destruct (replace_self_balance (drop 3 rest)) eqn:Hd; cbn in Hr;
        [done|]. injection Hr as ->.
      apply IH in Hd as (-> & i & Hi & Hg); [|rewrite length_drop; simpl; lia].
      split; [done|]. exists (4 + i)%nat. rewrite length_drop in Hi.
      split; [simpl; lia|].
      rewrite <- self_balance_at_drop. exact Hg.
    + destruct (replace_self_balance rest) eqn:Hd; cbn in Hr; [done|].
      injection Hr as ->.
      apply IH in Hd as (-> & i & Hi & Hg); [|simpl; lia].
      split; [done|]. exists (S i). split; [simpl; lia|].
      by rewrite self_balance_at_S.
    + injection Hr as ->. apply self_balance_at_Raised in H0 as Heq.
      subst e. split; [done|]. exists 0%nat. split; [simpl; lia|done].
Qed.

Lemma addresses_have_room_guard instrs :
  addresses_have_room instrs = true →
  ∀ i e, (i < length instrs)%nat → self_balance_at instrs i ≠ Raised e.
Proof.
  unfold addresses_have_room. rewrite forallb_forall.
  intros Hroom i e Hi Hg.
  apply self_balance_at_Raised_inv in Hg as (a & Ha & Hn & Hlen); [|done].
  specialize (Hroom i). rewrite Ha, Hn in Hroom. cbn in Hroom.
  assert (Hin : In i (seq 0 (length instrs))) by (apply in_seq; lia).
  apply Hroom in Hin. apply Nat.ltb_lt in Hin. lia.
Qed.

(** Results of a run start with a copied instruction only when the input
    starts with that instruction. *)
Lemma replace_self_balance_head_copied instrs b res :
  replace_self_balance instrs = Returned (EvmInsn b :: res) →
  ∃ rest, instrs = b :: rest ∧
          self_balance_at (b :: rest) 0 = Returned false ∧
          replace_self_balance rest = Returned res.
Proof.
  destruct instrs as [|a rest].
  - by rewrite replace_self_balance_nil.
  - rewrite replace_self_balance_cons.
    destruct (self_balance_at (a :: rest) 0) as [[|]|e'] eqn:H0; cbn;
      [| |done].
    + by destruct (replace_self_balance (drop 3 rest)).
    + destruct (replace_self_balance rest) eqn:Hd; cbn; [|done].
      intros [= -> ->]. by exists rest.
Qed.

(** X1.  [replace_self_balance] returns a list exactly when its guard reads
    past the end at no index, and the only exception it raises is
    [IndexError]. *)
Theorem replace_self_balance_returns_iff instrs :
  ((∃ res, replace_self_balance instrs = Returned res) ↔
   ∀ i, (i < length instrs)%nat →
        self_balance_at instrs i ≠ Raised IndexError) ∧
  (∀ e, replace_self_balance instrs = Raised e → e = IndexError).
Proof.
  split; [split|].
  - intros [res Hres] i Hi.
    by apply (replace_self_balance_returns_guard _ _ Hres).
  - intros Hg. apply replace_self_balance_guard_returns. intros i e Hi He.
    apply self_balance_at_Raised in He as Heq. subst e. by apply (Hg i).
  - intros e He. by apply replace_self_balance_Raised in He as [-> _].
Qed.

(** X2.  When every [ADDRESS] has at least three instructions after it,
    [replace_self_balance] returns a list. *)
Theorem replace_self_balance_returns_with_room instrs :
  addresses_have_room instrs = true →
  ∃ res, replace_self_balance instrs = Returned res.
Proof.
  intros Hroom. apply replace_self_balance_guard_returns.
  by apply addresses_have_room_guard.
Qed.

Lemma replace_self_balance_returns_with_room_witness :
  addresses_have_room exact_idiom = true ∧
  ∃ res, replace_self_balance exact_idiom = Returned res.
Proof.
  exact (conj eq_refl
           (replace_self_balance_returns_with_room exact_idiom eq_refl)).
Defined.

(** X3.  A list [replace_self_balance] returns has one element for every
    instruction it copied and one for every four it fused: its length plus
    three times the number of fused elements is the length of the input. *)
Theorem replace_self_balance_length instrs res :
  replace_self_balance instrs = Returned res →
  (length res + 3 * count_fused res = length instrs)%nat.
Proof.
  revert instrs res.
  apply (replace_self_balance_ind (λ instrs res,
    (length res + 3 * count_fused res = length instrs)%nat)).
  - done.
  - intros a rest res _ _ IH. simpl. lia.
  - intros a b c d post res _ _ IH. simpl. lia.
Qed.

Lemma replace_self_balance_length_witness :
  replace_self_balance exact_idiom = Returned [SelfBalance] ∧
  (length [SelfBalance] + 3 * count_fused [SelfBalance] =
   length exact_idiom)%nat.
Proof.
  exact (conj eq_refl
           (replace_self_balance_length exact_idiom [SelfBalance] eq_refl)).
Defined.

(** X4.  Fusion neither drops nor adds a jump destination: the list
    [replace_self_balance] returns has the [JUMPDEST] program counters of its
    input, in the same order. *)
Theorem replace_self_balance_keeps_jumpdests instrs res :
  replace_self_balance instrs = Returned res →
  jumpdests res = jumpdests (EvmInsn <$> instrs).
Proof.
  revert instrs res.
  apply (replace_self_balance_ind (λ instrs res,
    jumpdests res = jumpdests (EvmInsn <$> instrs))).
  - done.
  - intros a rest res _ _ IH. cbn. by rewrite IH.
  - intros a b c d post res (Ha & Hb & _ & Hc & Hd) _ IH. cbn.
    by rewrite Ha, Hb, Hc, Hd.
Qed.

Lemma replace_self_balance_keeps_jumpdests_witness :
  replace_self_balance three_jumpdests = Returned (EvmInsn <$> three_jumpdests)
  ∧ jumpdests (EvmInsn <$> three_jumpdests) = [10; 20; 30].
Proof.
  split; [reflexivity|].
  exact (replace_self_balance_keeps_jumpdests three_jumpdests
           (EvmInsn <$> three_jumpdests) eq_refl).
Defined.

(** X5.  No unfused idiom is left: in a list [replace_self_balance] returns,
    no four consecutive elements are the instructions
    [ADDRESS; PUSH20 2^160-1; AND; BALANCE]. *)
Theorem replace_self_balance_leaves_no_idiom instrs res k a b c d :
  replace_self_balance instrs = Returned res →
  res !! k = Some (EvmInsn a) →
  res !! (k + 1)%nat = Some (EvmInsn b) →
  res !! (k + 2)%nat = Some (EvmInsn c) →
  res !! (k + 3)%nat = Some (EvmInsn d) →
  ¬ self_balance_idiom a b c d.
Proof.
  intros Hres. revert instrs res Hres k.
  apply (replace_self_balance_ind (λ _ res,
    ∀ k, res !! k = Some (EvmInsn a) →
         res !! (k + 1)%nat = Some (EvmInsn b) →
         res !! (k + 2)%nat = Some (EvmInsn c) →
         res !! (k + 3)%nat = Some (EvmInsn d) →
         ¬ self_balance_idiom a b c d)).
  - intros k Hk. by rewrite lookup_nil in Hk.
  - intros a0 rest res Hg Hrest IH [|k] H0 H1 H2 H3; [|by apply (IH k)].
    cbn in H0, H1, H2, H3. injection H0 as ->. intros Hid.
    destruct res as [|x1 [|x2 [|x3 res3]]]; try done.
    cbn in H1, H2, H3. injection H1 as ->. injection H2 as ->.
    injection H3 as ->.
    apply replace_self_balance_head_copied in Hrest
      as (rest1 & -> & _ & Hrest).
    apply replace_self_balance_head_copied in Hrest
      as (rest2 & -> & _ & Hrest).
    apply replace_self_balance_head_copied in Hrest
      as (rest3 & -> & _ & Hrest).
    assert (Ht : self_balance_at (a :: b :: c :: d :: rest3) 0 = Returned true)
      by (apply self_balance_at_true; by exists a, b, c, d).
    by rewrite Ht in Hg.
  - intros a0 b0 c0 d0 post res _ _ IH [|k] H0 H1 H2 H3; [done|].
    by apply (IH k).
Qed.

Lemma replace_self_balance_leaves_no_idiom_witness :
  replace_self_balance deviating_idiom_prefix =
    Returned (EvmInsn <$> deviating_idiom_prefix) ∧
  ¬ self_balance_idiom
      (plain "ADDRESS" 0x30 0) (pushing "PUSH20" 0x73 address_mask 1)
      (plain "AND" 0x16 22) (plain "POP" 0x50 23).
Proof.
  split; [reflexivity|].
  apply (replace_self_balance_leaves_no_idiom deviating_idiom_prefix
           (EvmInsn <$> deviating_idiom_prefix) 0); reflexivity.
Defined.

(** X6.  An idiom that follows instructions none of which is [ADDRESS] is
    fused: the pass copies those instructions, puts the fused element in the
    idiom's place and goes on with what follows the idiom. *)
Theorem replace_self_balance_fuses_after_prefix pre a b c d post :
  Forall (λ x, name x ≠ "ADDRESS") pre →
  self_balance_idiom a b c d →
  replace_self_balance (pre ++ a :: b :: c :: d :: post) =
  (res ← replace_self_balance post;
   Returned ((EvmInsn <$> pre) ++ SelfBalance :: res)).
Proof.
  intros Hpre Hid. induction Hpre as [|x pre Hx Hpre IH].
  - cbn [app fmap list_fmap]. rewrite replace_self_balance_cons.
    assert (Ht : self_balance_at (a :: b :: c :: d :: post) 0 = Returned true)
      by (apply self_balance_at_true; by exists a, b, c, d).
    rewrite Ht. reflexivity.
  - cbn [app]. rewrite replace_self_balance_cons.
    rewrite self_balance_at_not_address by done. cbn. rewrite IH.
    by destruct (replace_self_balance post).
Qed.

Lemma replace_self_balance_fuses_after_prefix_witness :
  Forall (λ x, name x ≠ "ADDRESS") [plain "STOP" 0x00 0] ∧
  self_balance_idiom
    (plain "ADDRESS" 0x30 1) (pushing "PUSH20" 0x73 address_mask 2)
    (plain "AND" 0x16 23) (plain "BALANCE" 0x31 24) ∧
  replace_self_balance
    ([plain "STOP" 0x00 0] ++
     plain "ADDRESS" 0x30 1 :: pushing "PUSH20" 0x73 address_mask 2 ::
     plain "AND" 0x16 23 :: plain "BALANCE" 0x31 24 :: []) =
  Returned [EvmInsn (plain "STOP" 0x00 0); SelfBalance].
Proof.
  assert (H1 : Forall (λ x, name x ≠ "ADDRESS") [plain "STOP" 0x00 0])
    by (apply (bool_decide_unpack _); vm_compute; exact I).
  assert (H2 : self_balance_idiom
    (plain "ADDRESS" 0x30 1) (pushing "PUSH20" 0x73 address_mask 2)
    (plain "AND" 0x16 23) (plain "BALANCE" 0x31 24))
    by (repeat split).
  split; [exact H1|]. split; [exact H2|].
  exact (replace_self_balance_fuses_after_prefix
           [plain "STOP" 0x00 0] _ _ _ _ [] H1 H2).
Defined.

(** ** Metadata stripping, further *)

Lemma marker_count_elem instrs i :
  marker_at instrs i = true ↔
  i ∈ filter (λ i, marker_at instrs i = true) (seq 0 (length instrs)).
Proof.
  rewrite list_elem_of_filter, elem_of_seq. split; [|by intros [? _]].
  intros Hm. split; [done|]. apply marker_at_lt in Hm. lia.
Qed.

Lemma marker_count_pos instrs :
  marker_count instrs ≠ 0%nat → ∃ i, marker_at instrs i = true.
Proof.
  unfold marker_count. intros Hne.
  destruct (filter _ _) as [|i l] eqn:Hf; [done|].
  exists i. apply marker_count_elem. rewrite Hf. left.
Qed.

(** X7.  [remove_metadata] leaves a list unchanged exactly when the marker
    pair (0xA1, 0x65) starts nowhere in it; lists of fewer than two
    instructions are among them. *)
Theorem remove_metadata_unchanged_iff instrs :
  (remove_metadata instrs = instrs ↔ ∀ j, marker_at instrs j = false) ∧
  ((length instrs < 2)%nat → remove_metadata instrs = instrs).
Proof.
  assert (Hiff : remove_metadata instrs = instrs ↔
                 ∀ j, marker_at instrs j = false).
  { split; [|apply remove_metadata_no_marker].
    intros Heq.
    destruct (remove_metadata_spec instrs)
      as [[_ Hno]|(i & Hmi & Hcut & _)]; [done|].
    apply marker_at_lt in Hmi. rewrite Hcut in Heq.
    apply (f_equal length) in Heq. rewrite length_take in Heq. lia. }
  split; [done|]. intros Hlen. apply Hiff. intros j.
  destruct (marker_at instrs j) eqn:Hm; [|done].
  apply marker_at_lt in Hm. lia.
Qed.

(** X8.  [remove_metadata] cuts at the last marker pair: when the pair starts
    at index [i] and at no later index, the result is the first [i]
    instructions, so the marker and everything after it is dropped. *)
Theorem remove_metadata_cuts_at_last_marker instrs i :
  marker_at instrs i = true →
  (∀ j, (i < j)%nat → marker_at instrs j = false) →
  remove_metadata instrs = take i instrs.
Proof.
  intros Hmi Hlast.
  destruct (remove_metadata_spec instrs)
    as [[_ Hno]|(k & Hmk & Hcut & Hafter)].
  - by rewrite Hno in Hmi.
  - destruct (lt_eq_lt_dec i k) as [[Hlt| ->]|Hgt]; [|done|].
    + by rewrite (Hlast k Hlt) in Hmk.
    + by rewrite (Hafter i Hgt) in Hmi.
Qed.

Lemma remove_metadata_cuts_at_last_marker_witness :
  marker_at two_markers 2 = true ∧
  (∀ j, (2 < j)%nat → marker_at two_markers j = false) ∧
  remove_metadata two_markers = take 2 two_markers.
Proof.
  assert (H1 : marker_at two_markers 2 = true) by reflexivity.
  assert (H2 : ∀ j, (2 < j)%nat → marker_at two_markers j = false).
  { intros j Hj. destruct (marker_at two_markers j) eqn:Hm; [|reflexivity].
    apply marker_at_lt in Hm. simpl in Hm. lia. }
  exact (conj H1 (conj H2
           (remove_metadata_cuts_at_last_marker two_markers 2 H1 H2))).
Defined.

(** X9.  Each application of [remove_metadata] to a list that holds a marker
    pair removes at least one: the number of positions where the pair starts
    goes down, so repeated stripping reaches a list without markers. *)
Theorem remove_metadata_removes_a_marker instrs :
  marker_count instrs ≠ 0%nat →
  (marker_count (remove_metadata instrs) < marker_count instrs)%nat.
Proof.
  intros Hpos. apply marker_count_pos in Hpos as [i0 Hi0].
  destruct (remove_metadata_spec instrs)
    as [[_ Hno]|(i & Hmi & Hcut & _)]; [by rewrite Hno in Hi0|].
  rewrite Hcut. unfold marker_count.
  set (small := filter _ (seq 0 (length (take i instrs)))).
  set (big := filter _ (seq 0 (length instrs))).
  assert (Hsub : i :: small ⊆+ big).
  { apply NoDup_submseteq.
    - constructor; [|apply NoDup_filter, NoDup_seq].
      intros Hin. apply marker_count_elem, marker_at_take in Hin. lia.
    - intros j [->|Hj]%elem_of_cons; apply marker_count_elem; [done|].
      by apply marker_count_elem, marker_at_take in Hj as [_ Hj]. }
  apply submseteq_length in Hsub. simpl in Hsub. lia.
Qed.

Lemma remove_metadata_removes_a_marker_witness :
  marker_count two_markers ≠ 0%nat ∧
  (marker_count (remove_metadata two_markers) < marker_count two_markers)%nat.
Proof.
  assert (H : marker_count two_markers ≠ 0%nat) by (vm_compute; discriminate).
  exact (conj H (remove_metadata_removes_a_marker two_markers H)).
Defined.

(** ** Dispatch trees, further *)

(** X10.  For a non-empty table sorted by key with pairwise-distinct keys,
    the block [make_bst_lookup] emits consumes the lookup key and leaves one
    value in its place: the target of the entry with that key, or the
    sentinel when no entry has it.  This holds also when the list object has
    been appended to after [make_bst_lookup] received it. *)
Theorem make_bst_lookup_finds (items extra : list entry) :
  items ≠ [] → Sorted Z.le items.*1 → NoDup items.*1 →
  ∃ c, make_bst_lookup items (items ++ extra) = Returned c ∧
       ∀ key rest,
       ∃ v, exec c (VInt key :: rest) = Running (v :: rest) ∧
            (∀ t, (key, t) ∈ items → v = t) ∧
            (key ∉ items.*1 → v = sentinel).
Proof.
  intros Hne Hs Hnd.
  destruct (make_bst_lookup_exec items extra Hne Hs Hnd) as (c & Hc & Hex).
  exists c. split; [done|]. intros key rest.
  exists (lookup_result key items). split; [done|]. split.
  - intros t Ht. by apply lookup_result_present.
  - apply lookup_result_absent.
Qed.

Lemma make_bst_lookup_finds_witness :
  four_entries ≠ [] ∧ Sorted Z.le four_entries.*1 ∧ NoDup four_entries.*1 ∧
  ∃ c, make_bst_lookup four_entries (four_entries ++ four_entries) =
         Returned c ∧
       ∀ key rest,
       ∃ v, exec c (VInt key :: rest) = Running (v :: rest) ∧
            (∀ t, (key, t) ∈ four_entries → v = t) ∧
            (key ∉ four_entries.*1 → v = sentinel).
Proof.
  assert (H0 : four_entries ≠ []) by discriminate.
  assert (Hs : Sorted Z.le four_entries.*1)
    by (repeat constructor; vm_compute; discriminate).
  assert (Hn : NoDup four_entries.*1)
    by (apply (bool_decide_unpack _); vm_compute; exact I).
  exact (conj H0 (conj Hs (conj Hn
           (make_bst_lookup_finds four_entries four_entries H0 Hs Hn)))).
Defined.

(** X11.  No false positive, whatever the order of the table: for every
    non-empty table, sorted or not, the emitted block consumes the key and
    leaves either the sentinel or the target of an entry that has this very
    key. *)
Theorem make_bst_lookup_no_false_positive (items : list entry) :
  items ≠ [] →
  ∃ c, make_bst_lookup items items = Returned c ∧
       ∀ key rest,
       ∃ v, exec c (VInt key :: rest) = Running (v :: rest) ∧
            (v = sentinel ∨ (key, v) ∈ items).
Proof.
  intros Hne.
  destruct (make_bst_lookup_shape (λ items c,
    items ≠ [] →
    ∀ key rest,
    ∃ v, exec c (VInt key :: rest) = Running (v :: rest) ∧
         (v = sentinel ∨ (key, v) ∈ items))) with (items := items)
    as (c & Hc & HP).
  - done.
  - intros k t _ key rest. cbn.
    destruct (Z.eqb_spec k key) as [->|]; eexists; (split; [reflexivity|]).
    + right. left.
    + by left.
  - intros k0 t0 k1 t1 _ key rest. cbn.
    destruct (Z.eqb_spec k0 key) as [->|]; cbn.
    { eexists. split; [reflexivity|]. right. left. }
    destruct (Z.eqb_spec k1 key) as [->|]; eexists; (split; [reflexivity|]).
    + right. right. left.
    + by left.
  - intros L pivot tgt R cl cr Hlen _ HL HR _ key rest.
    assert (HneL : L ≠ []) by (intros ->; simpl in Hlen; lia).
    assert (HneR : R ≠ []) by (intros ->; simpl in Hlen; lia).
    rewrite exec_node_code.
    destruct (Z.ltb_spec key pivot).
    { destruct (HL HneL key rest) as (v & Hv & Hor).
      exists v. split; [done|]. destruct Hor as [->|Hin]; [by left|].
      right. apply elem_of_app. by left. }
    destruct (Z.ltb_spec pivot key).
    { destruct (HR HneR key rest) as (v & Hv & Hor).
      exists v. split; [done|]. destruct Hor as [->|Hin]; [by left|].
      right. apply elem_of_app. right. by right. }
    exists tgt. split; [done|]. right. apply elem_of_app. right.
    replace key with pivot by lia. left.
  - exists c. split; [|by apply HP].
    specialize (Hc []). by rewrite app_nil_r in Hc.
Qed.

Lemma make_bst_lookup_no_false_positive_witness :
  [(30, VLabel "c"); (10, VLabel "a"); (20, VLabel "b")] ≠ [] ∧
  ∃ c, make_bst_lookup [(30, VLabel "c"); (10, VLabel "a"); (20, VLabel "b")]
         [(30, VLabel "c"); (10, VLabel "a"); (20, VLabel "b")] = Returned c ∧
       ∀ key rest,
       ∃ v, exec c (VInt key :: rest) = Running (v :: rest) ∧
            (v = sentinel ∨
             (key, v) ∈ [(30, VLabel "c"); (10, VLabel "a"); (20, VLabel "b")]).
Proof.
  assert (H : [(30, VLabel "c"); (10, VLabel "a"); (20, VLabel "b")] ≠ [])
    by discriminate.
  exact (conj H (make_bst_lookup_no_false_positive _ H)).
Defined.

(** X12.  [make_bst_lookup] raises nothing, and what the generator it
    returns emits does not depend on entries appended to the list object
    afterwards: every cell it reads when it runs existed at the call. *)
Theorem make_bst_lookup_ignores_appended (items extra : list entry) :
  (∃ c, make_bst_lookup items items = Returned c) ∧
  make_bst_lookup items (items ++ extra) = make_bst_lookup items items.
Proof.
  split; [|apply make_bst_lookup_grown].
  destruct (make_bst_lookup_shape (λ _ _, True)) with (items := items)
    as (c & Hc & _); try done.
  exists c. specialize (Hc []). by rewrite app_nil_r in Hc.
Qed.

(** ** The global tables, further *)

Lemma sorted_contracts_keys contracts contract :
  contract ∈ (sorted_contracts contracts).*1 ↔ is_Some (contracts !! contract).
Proof.
  rewrite list_elem_of_fmap. split.
  - intros ([c raw] & -> & Hin). apply sorted_contracts_elem_of in Hin.
    by eexists.
  - intros [raw Hraw]. exists (contract, raw). split; [done|].
    by apply sorted_contracts_elem_of.
Qed.

Lemma contract_dispatch_lookup contracts contract raw :
  contracts !! contract = Some raw →
  lookup_result contract (contract_dispatch contracts) =
  VLabel (contract_entry_label contract).
Proof.
  intros Hc. apply lookup_result_present.
  - rewrite contract_dispatch_keys. apply sorted_contracts_NoDup.
  - apply sorted_contracts_elem_of in Hc. unfold contract_dispatch.
    apply list_elem_of_fmap. by exists (contract, raw).
Qed.

Lemma contract_dispatch_nonempty contracts contract raw :
  contracts !! contract = Some raw → contract_dispatch contracts ≠ [].
Proof.
  intros Hc%sorted_contracts_elem_of Hnil. unfold contract_dispatch in Hnil.
  apply fmap_nil_inv in Hnil. rewrite Hnil in Hc. by inversion Hc.
Qed.

(** X13.  With at least one contract, the generator [dispatch_contract]
    resolves the id of every contract to its entry label
    [contract_entry_<id>] and every other id to the sentinel, consuming the
    id; the entries the second loop of [generate_evm_code] appends to the
    same list afterwards do not change that. *)
Theorem dispatch_contract_resolves
  (contracts : gmap Z (list Instruction)) some_id some_raw extra :
  contracts !! some_id = Some some_raw →
  ∃ c, dispatch_contract contracts (contract_dispatch contracts ++ extra) =
         Returned c ∧
       ∀ contract rest,
         (is_Some (contracts !! contract) →
          exec c (VInt contract :: rest) =
          Running (VLabel (contract_entry_label contract) :: rest)) ∧
         (contracts !! contract = None →
          exec c (VInt contract :: rest) = Running (sentinel :: rest)).
Proof.
  intros Hsome. unfold dispatch_contract.
  destruct (make_bst_lookup_exec (contract_dispatch contracts) extra)
    as (c & Hc & Hex).
  { by eapply contract_dispatch_nonempty. }
  { rewrite contract_dispatch_keys. apply sorted_contracts_Sorted. }
  { rewrite contract_dispatch_keys. apply sorted_contracts_NoDup. }
  exists c. split; [done|]. intros contract rest. rewrite Hex. split.
  - intros [raw Hraw]. by rewrite (contract_dispatch_lookup _ _ raw).
  - intros Hnone. rewrite lookup_result_absent; [done|].
    rewrite contract_dispatch_keys, sorted_contracts_keys, Hnone.
    by intros [? ?].
Qed.

Lemma dispatch_contract_resolves_witness :
  ({[1 := with_metadata]} : gmap Z (list Instruction)) !! 1 =
    Some with_metadata ∧
  ∃ c, dispatch_contract {[1 := with_metadata]}
         (contract_dispatch {[1 := with_metadata]} ++
          contract_dispatch {[1 := with_metadata]}) = Returned c ∧
       exec c [VInt 1] = Running [VLabel "contract_entry_1"] ∧
       exec c [VInt 2] = Running [sentinel].
Proof.
  assert (H1 : ({[1 := with_metadata]} : gmap Z (list Instruction)) !! 1 =
               Some with_metadata) by reflexivity.
  split; [exact H1|].
  destruct (dispatch_contract_resolves {[1 := with_metadata]} 1 with_metadata
              (contract_dispatch {[1 := with_metadata]}) H1)
    as (c & Hc & Hex).
  exists c. split; [exact Hc|]. split.
  - exact (proj1 (Hex 1 []) (ex_intro _ with_metadata H1)).
  - exact (proj2 (Hex 2 []) eq_refl).
Defined.

(** X14.  In any contract, the block of [EXTCODESIZE] replaces the id of a
    known contract by the number of instructions the disassembler returned
    for that contract, and halts on every id that is not a contract. *)
Theorem extcodesize_resolves_or_halts
  (contracts : gmap Z (list Instruction)) contract_id code_ dispatch instr :
  name instr = "EXTCODESIZE" →
  ∃ c, run_op contract_id code_ (code_size_of contracts) dispatch
         (EvmInsn instr) = Returned c ∧
       ∀ target rest,
         (∀ raw, contracts !! target = Some raw →
            exec c (VInt target :: rest) =
            Running (VInt (Z.of_nat (length raw)) :: rest)) ∧
         (contracts !! target = None →
            ∃ s, exec c (VInt target :: rest) = Halted (sentinel :: s)).
Proof.
  intros Hn. unfold code_size_of.
  destruct (decide (code_sizes contracts = [])) as [Hnil|Hne].
  - rewrite Hnil, make_bst_lookup_empty.
    eexists. split; [by apply run_op_extcodesize|].
    intros target rest. split.
    + intros raw Hraw. by apply code_sizes_nonempty in Hraw.
    + intros _. by eexists.
  - destruct (make_bst_lookup_exec (code_sizes contracts) [])
      as (lookup & Hl & Hex); [done| | |].
    { rewrite code_sizes_keys. apply sorted_contracts_Sorted. }
    { rewrite code_sizes_keys. apply sorted_contracts_NoDup. }
    rewrite app_nil_r in Hl. rewrite Hl.
    eexists. split; [by apply run_op_extcodesize|].
    intros target rest. split.
    + intros raw Hraw.
      by rewrite exec_app, Hex, (code_sizes_lookup _ _ raw).
    + intros Hnone. rewrite exec_app, Hex, lookup_result_absent.
      * by eexists.
      * rewrite code_sizes_keys, sorted_contracts_keys, Hnone.
        by intros [? ?].
Qed.

Lemma extcodesize_resolves_or_halts_witness :
  name (plain "EXTCODESIZE" 0x3b 0) = "EXTCODESIZE" ∧
  ∃ c, run_op 1 [] (code_size_of {[1 := with_metadata]}) (Returned [])
         (EvmInsn (plain "EXTCODESIZE" 0x3b 0)) = Returned c ∧
       exec c [VInt 1] = Running [VInt 9] ∧
       ∃ s, exec c [VInt 2] = Halted (sentinel :: s).
Proof.
  split; [reflexivity|].
  destruct (extcodesize_resolves_or_halts {[1 := with_metadata]} 1 []
              (Returned []) (plain "EXTCODESIZE" 0x3b 0) eq_refl)
    as (c & Hc & Hex).
  exists c. split; [exact Hc|]. split.
  - exact (proj1 (Hex 1 []) with_metadata eq_refl).
  - exact (proj2 (Hex 2 []) eq_refl).
Defined.

(** ** Label names *)

Lemma uint_string_sep_inj (d d' : Decimal.uint) s t :
  DecimalString.NilEmpty.string_of_uint d +:+ String "_" s =
  DecimalString.NilEmpty.string_of_uint d' +:+ String "_" t →
  d = d' ∧ s = t.
Proof.
  revert d'.
  induction d as [|d IH|d IH|d IH|d IH|d IH|d IH|d IH|d IH|d IH|d IH];
    intros [|d'|d'|d'|d'|d'|d'|d'|d'|d'|d']; cbn; intros H;
    try discriminate H;
    try (injection H as H; apply IH in H as [-> ->]; done).
  by injection H as ->.
Qed.

Lemma uint_string_head (d : Decimal.uint) s :
  d ≠ Decimal.Nil →
  ∃ c r, DecimalString.NilEmpty.string_of_uint d +:+ s = String c r ∧
         c ≠ "-"%char.
Proof. destruct d; [done|..]; intros _; cbn; eexists _, _; by split. Qed.

Lemma str_int_cases n :
  ∃ d, d ≠ Decimal.Nil ∧
    ((Z.to_int n = Decimal.Pos d ∧
      str_int n = DecimalString.NilEmpty.string_of_uint d) ∨
     (Z.to_int n = Decimal.Neg d ∧
      str_int n = String "-" (DecimalString.NilEmpty.string_of_uint d))).
Proof.
  unfold str_int. destruct n as [|p|p]; cbn.
  - exists (Decimal.D0 Decimal.Nil). split; [done|]. by left.
  - exists (Pos.to_uint p).
    pose proof (DecimalPos.Unsigned.to_uint_nonnil p) as Hn.
    split; [done|]. left. split; [done|]. by destruct (Pos.to_uint p).
  - exists (Pos.to_uint p).
    pose proof (DecimalPos.Unsigned.to_uint_nonnil p) as Hn.
    split; [done|]. right. split; [done|]. by destruct (Pos.to_uint p).
Qed.

(** The decimal form of an integer ends where an underscore follows it. *)
Lemma str_int_sep_inj n m s t :
  str_int n +:+ String "_" s = str_int m +:+ String "_" t →
  n = m ∧ s = t.
Proof.
  destruct (str_int_cases n) as (d & Hd & [[Hi Hs]|[Hi Hs]]);
  destruct (str_int_cases m) as (d' & Hd' & [[Hi' Hs']|[Hi' Hs']]);
  rewrite Hs, Hs'; intros H.
  - apply uint_string_sep_inj in H as [-> ->]. split; [|done].
    apply DecimalZ.to_int_inj. congruence.
  - destruct (uint_string_head d (String "_" s) Hd) as (c & r & Hc & Hne).
    rewrite Hc in H. cbn in H. by injection H as -> _.
  - destruct (uint_string_head d' (String "_" t) Hd') as (c & r & Hc & Hne).
    rewrite Hc in H. cbn in H. by injection H as <- _.
  - cbn in H. injection H as H.
    apply uint_string_sep_inj in H as [-> ->]. split; [|done].
    apply DecimalZ.to_int_inj. congruence.
Qed.

Lemma string_app_inj_r (s t1 t2 : string) : s +:+ t1 = s +:+ t2 → t1 = t2.
Proof. induction s as [|c s IH]; cbn; [done|]. intros [= H]. auto. Qed.

Lemma str_int_inj n m : str_int n = str_int m → n = m.
Proof.
  intros H.
  assert (H' : str_int n +:+ String "_" "" = str_int m +:+ String "_" "")
    by (by rewrite H).
  by apply str_int_sep_inj in H' as [-> _].
Qed.

(** X15.  Label names do not collide: distinct contract ids give distinct
    entry labels, distinct (contract id, program counter) pairs give distinct
    jump-destination labels, and no entry label, jump-destination label or
    the run-loop label [run_loop_start] equals a label of another kind. *)
Theorem label_names_distinct :
  (∀ c c', contract_entry_label c = contract_entry_label c' → c = c') ∧
  (∀ c p c' p',
     jumpdest_label c p = jumpdest_label c' p' → c = c' ∧ p = p') ∧
  (∀ c c' p, contract_entry_label c ≠ jumpdest_label c' p) ∧
  (∀ c, contract_entry_label c ≠ "run_loop_start") ∧
  (∀ c p, jumpdest_label c p ≠ "run_loop_start").
Proof.
  repeat split.
  - intros c c' H. unfold contract_entry_label in H.
    apply string_app_inj_r in H. by apply str_int_inj.
  - unfold jumpdest_label in H. apply string_app_inj_r in H.
    by apply str_int_sep_inj in H as [-> _].
  - unfold jumpdest_label in H. apply string_app_inj_r in H.
    apply str_int_sep_inj in H as [_ H]. by apply str_int_inj.
  - intros c c' p H. unfold contract_entry_label, jumpdest_label in H.
    cbn in H. discriminate H.
  - intros c H. unfold contract_entry_label in H. cbn in H. discriminate H.
  - intros c p H. unfold jumpdest_label in H. cbn in H. discriminate H.
Qed.

(** ** The translator accepts what it has a branch for *)

Lemma run_op_chain_name contract_id code_ size_code dispatch_code i :
  In (name i) translated_names →
  ∃ b, run_op contract_id code_ (Returned size_code) (Returned dispatch_code)
         (EvmInsn i) = Returned b.
Proof.
  unfold translated_names. cbn [In]. intros Hin.
  unfold run_op, run_op_evm. cbv zeta.
  repeat (destruct Hin as [<-|Hin]; [eexists; reflexivity|]).
  done.
Qed.

Ltac exclude_names Hkey :=
  repeat match goal with
         | |- context [String.eqb (name ?i) ?N] =>
             let Heq := fresh in
             destruct (String.eqb_spec (name i) N) as [Heq|_];
             [exfalso; rewrite Heq in Hkey; cbn in Hkey; discriminate Hkey|]
         end.

Lemma str_prefix_3_4 s : str_prefix 3 (str_prefix 4 s) = str_prefix 3 s.
Proof. by destruct s as [|? [|? [|? [|? ?]]]]. Qed.

Lemma run_op_chain_swap contract_id code_ size dispatch i n :
  str_prefix 4 (name i) = "SWAP" →
  py_int (str_suffix 4 (name i)) = Returned n →
  ∃ b, run_op contract_id code_ size dispatch (EvmInsn i) = Returned b.
Proof.
  intros Hp Hn. unfold run_op, run_op_evm. cbv zeta.
  exclude_names Hp. rewrite Hp, Hn. cbn.
  destruct (n =? 1); [by eexists|]. destruct (n =? 2); by eexists.
Qed.

Lemma run_op_chain_push contract_id code_ size dispatch i v :
  str_prefix 4 (name i) = "PUSH" →
  operand i = Some v →
  run_op contract_id code_ size dispatch (EvmInsn i) =
  Returned [OpPush (VInt v)].
Proof.
  intros Hp Hv. unfold run_op, run_op_evm. cbv zeta.
  exclude_names Hp. rewrite Hp, Hv. reflexivity.
Qed.

Lemma run_op_chain_dup contract_id code_ size dispatch i n :
  str_prefix 3 (name i) = "DUP" →
  py_int (str_suffix 3 (name i)) = Returned n →
  ∃ b, run_op contract_id code_ size dispatch (EvmInsn i) = Returned b.
Proof.
  intros Hp Hn. unfold run_op, run_op_evm. cbv zeta.
  exclude_names Hp.
  assert (H4 : ∀ x, str_prefix 3 x ≠ "DUP" →
                    String.eqb (str_prefix 4 (name i)) x = false).
  { intros x Hx. destruct (String.eqb_spec (str_prefix 4 (name i)) x)
      as [Heq|]; [|done].
    exfalso. apply Hx. by rewrite <- Heq, str_prefix_3_4. }
  rewrite !H4 by discriminate. rewrite Hp, Hn. cbn.
  destruct (n - 1 =? 0); [by eexists|].
  destruct (n - 1 =? 1); [by eexists|].
  destruct (n - 1 =? 2); by eexists.
Qed.

Lemma run_op_translates contract_id code_ size_code dispatch_code x :
  insn_translates x = true →
  ∃ b, run_op contract_id code_ (Returned size_code) (Returned dispatch_code)
         x = Returned b.
Proof.
  destruct x as [i|]; [|intros _; by eexists].
  unfold insn_translates, translates.
  rewrite !orb_true_iff, !andb_true_iff.
  intros [[[Hin|[Hp Hn]]|[Hp Hv]]|[Hp Hn]].
  - apply run_op_chain_name. apply existsb_exists in Hin as (nm & Hin & Heq).
    apply String.eqb_eq in Heq. by rewrite Heq.
  - apply String.eqb_eq in Hp. unfold is_number in Hn.
    destruct (py_int _) as [n|] eqn:Hpy; [|done].
    by eapply run_op_chain_swap.
  - apply String.eqb_eq in Hp. apply bool_decide_eq_true in Hv as [v Hv].
    eexists. by eapply run_op_chain_push.
  - apply String.eqb_eq in Hp. unfold is_number in Hn.
    destruct (py_int _) as [n|] eqn:Hpy; [|done].
    by eapply run_op_chain_dup.
Qed.

Lemma compile_blocks_returns contract_id code_ size_code dispatch_code l :
  forallb insn_translates l = true →
  ∃ bs, compile_blocks contract_id code_ (Returned size_code)
          (Returned dispatch_code) l = Returned bs.
Proof.
  induction l as [|x l IH]; cbn [forallb compile_blocks]; [by eexists|].
  intros [Hx Hl]%andb_true_iff.
  destruct (run_op_translates contract_id code_ size_code dispatch_code x Hx)
    as [b ->].
  destruct (IH Hl) as [bs ->]. by eexists.
Qed.

Lemma compile_blocks_length contract_id code_ code_size dispatch l bs :
  compile_blocks contract_id code_ code_size dispatch l = Returned bs →
  length bs = length l.
Proof.
  revert bs. induction l as [|x l IH]; cbn [compile_blocks]; intros bs.
  - by intros [= <-].
  - destruct (run_op _ _ _ _ x); cbn; [|done].
    destruct (compile_blocks _ _ _ _ l); cbn; [|done].
    intros [= <-]. cbn. f_equal. by apply IH.
Qed.

Lemma dispatch_of_returns contract_id code_ :
  ∃ c, dispatch_of contract_id code_ = Returned c.
Proof.
  unfold dispatch_of.
  destruct (make_bst_lookup_shape (λ _ _, True))
    with (items := jump_table contract_id code_) as (c & Hc & _); try done.
  exists c. specialize (Hc []). by rewrite app_nil_r in Hc.
Qed.

(** X16.  [generate_contract_code] returns when normalisation returns, the
    code-size generator emits code, and every instruction left is one the
    translator can finish: a mnemonic of its chain, a push with its operand,
    or a swap or duplicate with a decimal number.  The result carries the
    given entry label and one block per normalised instruction. *)
Theorem generate_contract_code_returns label raw contract_id size_code code_ :
  normalize raw = Returned code_ →
  forallb insn_translates code_ = true →
  ∃ r, generate_contract_code label raw contract_id (Returned size_code) =
         Returned r ∧
       entry_label r = label ∧
       length (blocks r) = length code_.
Proof.
  intros Hnorm Hall. unfold generate_contract_code. rewrite Hnorm. cbn.
  destruct (dispatch_of_returns contract_id code_) as [dc Hdc]. rewrite Hdc.
  destruct (compile_blocks_returns contract_id code_ size_code dc code_ Hall)
    as [bs Hbs].
  rewrite Hbs. cbn. eexists. split; [done|]. split; [done|]. cbn.
  by eapply compile_blocks_length.
Qed.

Lemma generate_contract_code_returns_witness :
  normalize with_metadata = Returned (EvmInsn <$> three_jumpdests) ∧
  forallb insn_translates (EvmInsn <$> three_jumpdests) = true ∧
  ∃ r, generate_contract_code "contract_entry_1" with_metadata 1
         (Returned []) = Returned r ∧
       entry_label r = "contract_entry_1" ∧
       length (blocks r) = length (EvmInsn <$> three_jumpdests).
Proof.
  split; [reflexivity|]. split; [vm_compute; reflexivity|].
  apply (generate_contract_code_returns "contract_entry_1" with_metadata 1 []
           (EvmInsn <$> three_jumpdests)); vm_compute; reflexivity.
Defined.

(** ** The second loop of [generate_evm_code] *)

Lemma generate_contract_code_label label raw contract_id code_size r :
  generate_contract_code label raw contract_id code_size = Returned r →
  entry_label r = label.
Proof.
  unfold generate_contract_code. destruct (normalize raw); cbn; [|done].
  destruct (compile_blocks _ _ _ _ _); cbn; [|done]. by intros [= <-].
Qed.

Lemma compile_contracts_inv code_size todo :
  ∀ impls dl impls' final,
    compile_contracts code_size todo impls dl = Returned (impls', final) →
    ∃ new,
      impls' = impls ++ new ∧
      Forall2 (λ c impl,
                 generate_contract_code (contract_entry_label c.1) c.2 c.1
                   code_size = Returned impl) todo new.
Proof.
  induction todo as [|[contract raw] todo IH]; simpl;
    intros impls dl impls' final H.
  - injection H as <- _. exists []. by rewrite app_nil_r.
  - destruct (generate_contract_code _ _ _ _) as [impl|] eqn:Hg; cbn in H;
      [|done].
    apply IH in H as (new & -> & Hall). exists (impl :: new).
    rewrite <- app_assoc. split; [done|]. by constructor.
Qed.

Lemma compile_contracts_Returned code_size todo :
  ∀ impls dl,
    Forall (λ c, ∃ impl,
              generate_contract_code (contract_entry_label c.1) c.2 c.1
                code_size = Returned impl) todo →
    ∃ r, compile_contracts code_size todo impls dl = Returned r.
Proof.
  induction todo as [|[contract raw] todo IH]; simpl; intros impls dl Hall.
  - by eexists.
  - apply Forall_cons in Hall as [[impl Himpl] Hall]. cbn in Himpl.
    rewrite Himpl. cbn. by apply IH.
Qed.

Lemma compile_contracts_Raised code_size pre contract raw post e :
  ∀ impls dl,
    Forall (λ c, ∃ impl,
              generate_contract_code (contract_entry_label c.1) c.2 c.1
                code_size = Returned impl) pre →
    generate_contract_code (contract_entry_label contract) raw contract
      code_size = Raised e →
    compile_contracts code_size (pre ++ (contract, raw) :: post) impls dl =
    Raised e.
Proof.
  induction pre as [|[c r] pre IH]; simpl; intros impls dl Hall He.
  - by rewrite He.
  - apply Forall_cons in Hall as [[impl Himpl] Hall]. cbn in Himpl.
    rewrite Himpl. cbn. by apply IH.
Qed.

Lemma sorted_contracts_strict contracts :
  StronglySorted Z.lt (sorted_contracts contracts).*1.
Proof.
  apply sorted_nodup_strict;
    [apply sorted_contracts_Sorted|apply sorted_contracts_NoDup].
Qed.

(** In a strictly ascending list, what stands before an element is what is
    smaller. *)
Lemma strictly_sorted_split (pre post : list Z) c k :
  StronglySorted Z.lt (pre ++ c :: post) →
  (k ∈ pre ↔ k ∈ pre ++ c :: post ∧ k < c) ∧
  (k ∈ pre ++ [c] ↔ k ∈ pre ++ c :: post ∧ k ≤ c).
Proof.
  intros (Hlt & _ & Hpost)%StronglySorted_app.
  apply StronglySorted_inv in Hpost as [_ Hpost].
  rewrite Forall_forall in Hpost.
  assert (Hpre : k ∈ pre → k < c).
  { intros Hk. apply (Hlt k c Hk). by left. }
  assert (Hafter : k ∈ post → c < k).
  { intros Hk. by apply Hpost. }
  rewrite !elem_of_app, !elem_of_cons, elem_of_nil.
  split; split.
  - intros Hk. split; [by left|auto].
  - intros [[Hk|[->|Hk]] Hc]; [done|lia|]. apply Hafter in Hk. lia.
  - intros [Hk|[->|[]]]; [|split; [right; by left|lia]].
    split; [by left|]. apply Hpre in Hk. lia.
  - intros [[Hk|[->|Hk]] Hc]; [by left|right; by left|].
    apply Hafter in Hk. lia.
Qed.

(** X17.  [generate_evm_code] returns exactly when every contract compiles
    on its own, with its entry label [contract_entry_<id>] and the shared
    code-size generator. *)
Theorem generate_evm_code_returns_iff (contracts : gmap Z (list Instruction)) :
  (∃ r, generate_evm_code contracts = Returned r) ↔
  (∀ contract raw,
     contracts !! contract = Some raw →
     ∃ impl,
       generate_contract_code (contract_entry_label contract) raw contract
         (code_size_of contracts) = Returned impl).
Proof.
  unfold generate_evm_code. split.
  - intros [[impls final] Hr] contract raw Hc.
    apply compile_contracts_inv in Hr as (new & _ & Hall).
    apply sorted_contracts_elem_of in Hc.
    apply list_elem_of_lookup in Hc as [i Hi].
    destruct (Forall2_lookup_l _ _ _ _ _ Hall Hi) as (impl & _ & Himpl).
    by exists impl.
  - intros Hall. apply compile_contracts_Returned.
    apply Forall_forall. intros [contract raw] Hin.
    apply sorted_contracts_elem_of in Hin. by apply Hall.
Qed.

(** X18.  When [generate_evm_code] returns, the compiled contracts stand in
    strictly ascending order of contract id, one per contract of the input
    and each the result of [generate_contract_code] for it, whatever the
    order of the input dictionary; their entry labels are
    [contract_entry_<id>] and pairwise distinct. *)
Theorem generate_evm_code_order
  (contracts : gmap Z (list Instruction)) impls final :
  generate_evm_code contracts = Returned (impls, final) →
  ∃ ids,
    StronglySorted Z.lt ids ∧
    (∀ contract, contract ∈ ids ↔ is_Some (contracts !! contract)) ∧
    Forall2 (λ contract impl,
               ∃ raw, contracts !! contract = Some raw ∧
                      generate_contract_code (contract_entry_label contract)
                        raw contract (code_size_of contracts) =
                      Returned impl) ids impls ∧
    entry_label <$> impls = contract_entry_label <$> ids ∧
    NoDup (entry_label <$> impls) ∧
    length impls = size contracts.
Proof.
  unfold generate_evm_code. intros Hr.
  apply compile_contracts_inv in Hr as (new & Heq & Hall).
  cbn in Heq. subst new.
  exists (sorted_contracts contracts).*1.
  split; [apply sorted_contracts_strict|].
  split; [apply sorted_contracts_keys|].
  assert (Hlabels :
    entry_label <$> impls =
    contract_entry_label <$> (sorted_contracts contracts).*1).
  { clear -Hall. induction Hall as [|[c raw] impl l k Hx Hall IH]; [done|].
    cbn in *. f_equal; [|done]. by eapply generate_contract_code_label. }
  split; [|split; [done|split]].
  - apply Forall2_fmap_l.
    assert (Hin : Forall (λ c, contracts !! c.1 = Some c.2)
                    (sorted_contracts contracts)).
    { apply Forall_forall. intros [c raw] Hc.
      by apply sorted_contracts_elem_of. }
    clear Hlabels. induction Hall as [|[c raw] impl l k Hx Hall IH];
      [constructor|].
    apply Forall_cons in Hin as [Hc Hin]. constructor; [|by apply IH].
    cbn in *. by exists raw.
  - rewrite Hlabels. apply NoDup_fmap_2; [|apply sorted_contracts_NoDup].
    intros c c' Hcc. revert Hcc.
    unfold contract_entry_label. intros Hcc.
    apply string_app_inj_r in Hcc. by apply str_int_inj.
  - rewrite <- (Forall2_length _ _ _ Hall).
    unfold sorted_contracts. rewrite sorted_by_Permutation.
    apply length_map_to_list.
Qed.

(** X19.  The exception [generate_evm_code] raises is the one of the
    failing contract with the smallest id: contracts are compiled in
    ascending order of id and the first exception ends the loop. *)
Theorem generate_evm_code_first_failure
  (contracts : gmap Z (list Instruction)) contract raw e :
  contracts !! contract = Some raw →
  generate_contract_code (contract_entry_label contract) raw contract
    (code_size_of contracts) = Raised e →
  (∀ c raw',
     contracts !! c = Some raw' → c < contract →
     ∃ impl,
       generate_contract_code (contract_entry_label c) raw' c
         (code_size_of contracts) = Returned impl) →
  generate_evm_code contracts = Raised e.
Proof.
  intros Hc He Hbefore. unfold generate_evm_code.
  pose proof (sorted_contracts_strict contracts) as Hs.
  pose proof (λ c r, sorted_contracts_elem_of contracts c r) as Hmem.
  apply sorted_contracts_elem_of in Hc.
  apply list_elem_of_split in Hc as (pre & post & Hsplit).
  rewrite Hsplit in Hs, Hmem |- *.
  apply compile_contracts_Raised; [|done].
  apply Forall_forall. intros [c r] Hin. cbn.
  apply (Hbefore c r).
  - apply Hmem. apply elem_of_app. by left.
  - rewrite fmap_app, fmap_cons in Hs. cbn in Hs.
    apply (strictly_sorted_split _ _ _ c) in Hs as [Hs _].
    apply Hs. apply list_elem_of_fmap. by exists (c, r).
Qed.

Lemma generate_evm_code_order_witness :
  ∃ impls final,
    generate_evm_code {[2 := three_jumpdests; 1 := with_metadata]} =
      Returned (impls, final) ∧
    ∃ ids,
      StronglySorted Z.lt ids ∧
      (∀ contract,
         contract ∈ ids ↔
         is_Some (({[2 := three_jumpdests; 1 := with_metadata]}
                     : gmap Z (list Instruction)) !! contract)) ∧
      Forall2 (λ contract impl,
                 ∃ raw,
                   ({[2 := three_jumpdests; 1 := with_metadata]}
                      : gmap Z (list Instruction)) !! contract = Some raw ∧
                   generate_contract_code (contract_entry_label contract)
                     raw contract
                     (code_size_of
                        {[2 := three_jumpdests; 1 := with_metadata]}) =
                   Returned impl) ids impls ∧
      entry_label <$> impls = contract_entry_label <$> ids ∧
      NoDup (entry_label <$> impls) ∧
      length impls =
        size ({[2 := three_jumpdests; 1 := with_metadata]}
                : gmap Z (list Instruction)).
Proof.
  let r := eval vm_compute in
    (generate_evm_code {[2 := three_jumpdests; 1 := with_metadata]}) in
  match r with
  | Returned (?impls, ?final) =>
      exists impls, final; split;
        [vm_compute; reflexivity
        |apply (generate_evm_code_order
                  {[2 := three_jumpdests; 1 := with_metadata]} impls final);
         vm_compute; reflexivity]
  end.
Defined.

Lemma generate_evm_code_first_failure_witness :
  ({[1 := three_jumpdests; 2 := [plain "BALANCE" 0x31 0];
     3 := [plain "ORIGIN" 0x32 0]]} : gmap Z (list Instruction)) !! 2 =
    Some [plain "BALANCE" 0x31 0] ∧
  generate_contract_code (contract_entry_label 2) [plain "BALANCE" 0x31 0] 2
    (code_size_of
       {[1 := three_jumpdests; 2 := [plain "BALANCE" 0x31 0];
         3 := [plain "ORIGIN" 0x32 0]]}) =
    Raised (Exception "Unhandled instruction BALANCE") ∧
  generate_evm_code
    {[1 := three_jumpdests; 2 := [plain "BALANCE" 0x31 0];
      3 := [plain "ORIGIN" 0x32 0]]} =
  Raised (Exception "Unhandled instruction BALANCE").
Proof.
  split; [reflexivity|]. split; [vm_compute; reflexivity|].
  apply (generate_evm_code_first_failure _ 2 [plain "BALANCE" 0x31 0]).
  - reflexivity.
  - vm_compute; reflexivity.
  - intros c raw' Hc Hlt.
    apply lookup_insert_Some in Hc as [[<- <-]|[_ Hc]].
    + destruct (generate_contract_code _ _ _ _) as [impl|e] eqn:E;
        [by exists impl|].
      vm_compute in E. discriminate E.
    + apply lookup_insert_Some in Hc as [[<- _]|[_ Hc]]; [lia|].
      apply lookup_singleton_Some in Hc as [<- _]. lia.
Defined.

(** ** The storage dictionary *)

(** The entry the loop adds when the dictionary has none for a contract. *)
Lemma storage_touch_lookup {handle} (empty_handle : handle)
  (storage : gmap Z handle) contract k :
  match storage !! contract with
  | Some _ => storage
  | None => <[contract := empty_handle]> storage
  end !! k =
  match storage !! k with
  | Some h => Some h
  | None => if decide (k = contract) then Some empty_handle else None
  end.
Proof.
  destruct (storage !! contract) as [h|] eqn:Hc.
  - destruct (storage !! k) eqn:Hk; [done|].
    destruct (decide (k = contract)) as [->|]; [congruence|done].
  - rewrite lookup_insert. destruct (decide (contract = k)) as [<-|Hne].
    + rewrite Hc. by rewrite decide_True.
    + destruct (storage !! k); [done|]. by rewrite decide_False.
Qed.

(** The dictionary after the loop went through the contracts [seen]. *)
Lemma storage_touch_list {handle} (empty_handle : handle)
  (storage storage' final : gmap Z handle) contract (seen : list Z) :
  (∀ k, storage' !! k =
        match storage !! k with
        | Some h => Some h
        | None => if decide (k = contract) then Some empty_handle else None
        end) →
  (∀ k, final !! k =
        match storage' !! k with
        | Some h => Some h
        | None => if decide (k ∈ seen) then Some empty_handle else None
        end) →
  ∀ k, final !! k =
       match storage !! k with
       | Some h => Some h
       | None =>
           if decide (k ∈ contract :: seen) then Some empty_handle else None
       end.
Proof.
  intros H1 H2 k. rewrite H2, H1. destruct (storage !! k); [done|].
  destruct (decide (k = contract)) as [->|Hne].
  - rewrite decide_True; [done|by left].
  - destruct (decide (k ∈ seen)).
    + rewrite decide_True; [done|by right].
    + rewrite decide_False; [done|]. by intros [?|?]%elem_of_cons.
Qed.

Lemma compile_contracts_storage_Returned {handle} (empty_handle : handle)
  code_size todo :
  ∀ impls dl info storage final impls' dl' info',
    compile_contracts_storage handle empty_handle code_size todo impls dl
      info storage = (final, Returned (impls', dl', info')) →
    compile_contracts code_size todo impls dl = Returned (impls', dl') ∧
    info' = info ++
            ((λ c, (c.1, default empty_handle (storage !! c.1))) <$> todo) ∧
    ∀ k, final !! k =
         match storage !! k with
         | Some h => Some h
         | None =>
             if decide (k ∈ todo.*1) then Some empty_handle else None
         end.
Proof.
  induction todo as [|[contract raw] todo IH];
    cbn [compile_contracts_storage compile_contracts];
    intros impls dl info storage final impls' dl' info' H.
  - injection H as <- <- <- <-. rewrite app_nil_r.
    split; [done|]. split; [done|]. intros k. cbn.
    destruct (storage !! k); [done|]. rewrite decide_False; [done|].
    apply not_elem_of_nil.
  - destruct (generate_contract_code _ _ _ _) as [impl|e]; [|done]. cbn.
    apply IH in H as (Hc & -> & Hfinal).
    split; [done|]. split.
    + rewrite <- app_assoc. cbn. do 2 f_equal.
      apply list_fmap_ext. intros _ [c r] _. cbn.
      rewrite storage_touch_lookup. destruct (storage !! c); [done|].
      by destruct (decide (c = contract)).
    + intros k.
      apply (storage_touch_list empty_handle storage _ final contract
               todo.*1 (storage_touch_lookup empty_handle storage contract)
               Hfinal k).
Qed.

Lemma compile_contracts_storage_Raised {handle} (empty_handle : handle)
  code_size todo :
  ∀ impls dl info storage final e,
    compile_contracts_storage handle empty_handle code_size todo impls dl
      info storage = (final, Raised e) →
    ∃ pre contract raw post,
      todo = pre ++ (contract, raw) :: post ∧
      Forall (λ c, ∃ impl,
                generate_contract_code (contract_entry_label c.1) c.2 c.1
                  code_size = Returned impl) pre ∧
      generate_contract_code (contract_entry_label contract) raw contract
        code_size = Raised e ∧
      ∀ k, final !! k =
           match storage !! k with
           | Some h => Some h
           | None =>
               if decide (k ∈ pre.*1 ++ [contract]) then Some empty_handle
               else None
           end.
Proof.
  induction todo as [|[contract raw] todo IH];
    cbn [compile_contracts_storage];
    intros impls dl info storage final e H; [done|].
  destruct (generate_contract_code _ _ _ _) as [impl|e'] eqn:Hg.
  - apply IH in H as (pre & c & r & post & -> & Hpre & He & Hfinal).
    exists ((contract, raw) :: pre), c, r, post.
    split; [done|]. split; [constructor; [by exists impl|done]|].
    split; [done|]. intros k.
    apply (storage_touch_list empty_handle storage _ final contract
             (pre.*1 ++ [c]) (storage_touch_lookup empty_handle storage contract)
             Hfinal k).
  - injection H as <- <-. exists [], contract, raw, todo.
    split; [done|]. split; [constructor|]. split; [done|].
    intros k. rewrite storage_touch_lookup. cbn.
    destruct (storage !! k); [done|].
    destruct (decide (k = contract)) as [->|Hne].
    + rewrite decide_True; [done|by left].
    + rewrite decide_False; [done|]. by intros [?|[]%elem_of_nil]%elem_of_cons.
Qed.

(** X20.  When [generate_evm_code] returns, the caller's [storage]
    dictionary holds what it held before and, in addition, an empty
    dictionary for every contract it had no entry for; [contract_info] lists
    the contracts in strictly ascending order of id, each with the storage
    entry that the dictionary now has for it. *)
Theorem generate_evm_code_storage_returns {handle} (empty_handle : handle)
  (contracts : gmap Z (list Instruction)) (storage final : gmap Z handle)
  impls dl info :
  generate_evm_code_storage handle empty_handle contracts storage =
    (final, Returned (impls, dl, info)) →
  generate_evm_code contracts = Returned (impls, dl) ∧
  final = storage ∪ ((λ _, empty_handle) <$> contracts) ∧
  StronglySorted Z.lt info.*1 ∧
  (∀ contract, contract ∈ info.*1 ↔ is_Some (contracts !! contract)) ∧
  Forall (λ p, final !! p.1 = Some p.2) info.
Proof.
  unfold generate_evm_code_storage, generate_evm_code. intros H.
  apply compile_contracts_storage_Returned in H as (Hc & -> & Hfinal).
  cbn [app].
  assert (Hkeys :
    ((λ c : Z * list Instruction,
        (c.1, default empty_handle (storage !! c.1))) <$>
       sorted_contracts contracts).*1 = (sorted_contracts contracts).*1).
  { rewrite <- list_fmap_compose. done. }
  split; [done|]. split; [|split; [|split]].
  - apply map_eq. intros k. rewrite Hfinal, lookup_union, lookup_fmap.
    destruct (storage !! k) as [h|]; [by destruct (contracts !! k)|].
    destruct (decide (k ∈ (sorted_contracts contracts).*1)) as [Hk|Hk].
    + apply sorted_contracts_keys in Hk as [raw ->]. done.
    + rewrite sorted_contracts_keys in Hk.
      destruct (contracts !! k); [|done]. exfalso. by apply Hk.
  - rewrite Hkeys. apply sorted_contracts_strict.
  - intros contract. rewrite Hkeys. apply sorted_contracts_keys.
  - apply Forall_fmap, Forall_forall. intros [c raw] Hin. cbn.
    rewrite Hfinal. destruct (storage !! c); [done|].
    rewrite decide_True; [done|].
    apply list_elem_of_fmap. by exists (c, raw).
Qed.

(** X21.  Whether it returns or raises, [generate_evm_code] removes and
    overwrites no entry of the caller's [storage] dictionary, and whatever it
    adds is an empty dictionary under the id of one of the contracts. *)
Theorem generate_evm_code_storage_preserves {handle} (empty_handle : handle)
  (contracts : gmap Z (list Instruction)) (storage : gmap Z handle) :
  storage ⊆
    (generate_evm_code_storage handle empty_handle contracts storage).1 ∧
  (generate_evm_code_storage handle empty_handle contracts storage).1 ⊆
    storage ∪ ((λ _, empty_handle) <$> contracts).
Proof.
  unfold generate_evm_code_storage.
  destruct (compile_contracts_storage _ _ _ _ _ _ _ _) as [final [r|e]] eqn:H.
  - destruct r as [[impls dl] info].
    apply compile_contracts_storage_Returned in H as (_ & _ & Hfinal).
    cbn [fst]. split; apply map_subseteq_spec; intros k h.
    + intros Hk. by rewrite Hfinal, Hk.
    + rewrite Hfinal, lookup_union, lookup_fmap.
      destruct (storage !! k); [by destruct (contracts !! k)|].
      destruct (decide _) as [Hin|]; [|done].
      apply sorted_contracts_keys in Hin as [raw ->]. done.
  - apply compile_contracts_storage_Raised in H
      as (pre & c & raw & post & Hsplit & _ & _ & Hfinal).
    cbn [fst]. split; apply map_subseteq_spec; intros k h.
    + intros Hk. by rewrite Hfinal, Hk.
    + rewrite Hfinal, lookup_union, lookup_fmap.
      destruct (storage !! k); [by destruct (contracts !! k)|].
      destruct (decide _) as [Hin|]; [|done].
      assert (Hk : k ∈ (sorted_contracts contracts).*1).
      { rewrite Hsplit, fmap_app, fmap_cons. cbn [fst].
        apply elem_of_app in Hin as [Hin|Hin]; apply elem_of_app;
          [by left|right].
        apply elem_of_cons in Hin as [->|[]%elem_of_nil]. by left. }
      apply sorted_contracts_keys in Hk as [raw' ->]. done.
Qed.

(** X22.  When [generate_evm_code] raises, the exception is the one of a
    contract whose compilation failed, and the caller's [storage] dictionary
    has already been given entries for the contracts up to and including that
    one, and for no contract after it. *)
Theorem generate_evm_code_storage_raises {handle} (empty_handle : handle)
  (contracts : gmap Z (list Instruction)) (storage final : gmap Z handle) e :
  generate_evm_code_storage handle empty_handle contracts storage =
    (final, Raised e) →
  generate_evm_code contracts = Raised e ∧
  ∃ contract raw,
    contracts !! contract = Some raw ∧
    generate_contract_code (contract_entry_label contract) raw contract
      (code_size_of contracts) = Raised e ∧
    ∀ k, is_Some (final !! k) ↔
         is_Some (storage !! k) ∨
         (is_Some (contracts !! k) ∧ k ≤ contract).
Proof.
  unfold generate_evm_code_storage, generate_evm_code. intros H.
  apply compile_contracts_storage_Raised in H
    as (pre & c & raw & post & Hsplit & Hpre & He & Hfinal).
  pose proof (sorted_contracts_strict contracts) as Hs.
  pose proof (λ k, sorted_contracts_keys contracts k) as Hkeys.
  pose proof (sorted_contracts_elem_of contracts c raw) as Hc.
  rewrite Hsplit in Hs, Hkeys, Hc |- *.
  split; [by apply compile_contracts_Raised|].
  exists c, raw. split; [apply Hc, elem_of_app; right; by left|].
  split; [done|]. intros k. rewrite Hfinal.
  rewrite fmap_app, fmap_cons in Hs, Hkeys. cbn [fst] in Hs, Hkeys.
  pose proof (strictly_sorted_split _ _ _ k Hs) as [_ Hle].
  rewrite <- Hkeys, <- Hle.
  destruct (storage !! k) as [h|].
  - split; [by left|by eexists].
  - destruct (decide _) as [Hin|Hnin].
    + split; [by right|by eexists].
    + split; [by intros []|]. intros [[]|?]; [done|contradiction].
Qed.

Lemma generate_evm_code_storage_returns_witness :
  ∃ final impls dl info,
    generate_evm_code_storage (gmap Z Z) ∅
      {[2 := three_jumpdests; 1 := with_metadata]} {[2 := {[0 := 7]}]} =
      (final, Returned (impls, dl, info)) ∧
    generate_evm_code {[2 := three_jumpdests; 1 := with_metadata]} =
      Returned (impls, dl) ∧
    final =
      {[2 := {[0 := 7]}]} ∪
      ((λ _, ∅) <$>
         ({[2 := three_jumpdests; 1 := with_metadata]}
            : gmap Z (list Instruction))) ∧
    StronglySorted Z.lt info.*1 ∧
    (∀ contract,
       contract ∈ info.*1 ↔
       is_Some (({[2 := three_jumpdests; 1 := with_metadata]}
                   : gmap Z (list Instruction)) !! contract)) ∧
    Forall (λ p, final !! p.1 = Some p.2) info.
Proof.
  let r := eval vm_compute in
    (generate_evm_code_storage (gmap Z Z) ∅
       {[2 := three_jumpdests; 1 := with_metadata]} {[2 := {[0 := 7]}]}) in
  match r with
  | (?final, Returned (?impls, ?dl, ?info)) =>
      exists final, impls, dl, info; split;
        [vm_compute; reflexivity
        |apply (generate_evm_code_storage_returns (handle := gmap Z Z) ∅
                  {[2 := three_jumpdests; 1 := with_metadata]}
                  {[2 := {[0 := 7]}]} final impls dl info);
         vm_compute; reflexivity]
  end.
Defined.

Lemma generate_evm_code_storage_raises_witness :
  ∃ final,
    generate_evm_code_storage (gmap Z Z) ∅
      {[1 := three_jumpdests; 2 := [plain "BALANCE" 0x31 0];
        3 := [plain "ORIGIN" 0x32 0]]} {[7 := {[0 := 7]}]} =
      (final, Raised (Exception "Unhandled instruction BALANCE")) ∧
    is_Some (final !! 1) ∧ is_Some (final !! 2) ∧ final !! 3 = None ∧
    generate_evm_code
      {[1 := three_jumpdests; 2 := [plain "BALANCE" 0x31 0];
        3 := [plain "ORIGIN" 0x32 0]]} =
      Raised (Exception "Unhandled instruction BALANCE").
Proof.
  let r := eval vm_compute in
    (generate_evm_code_storage (gmap Z Z) ∅
       {[1 := three_jumpdests; 2 := [plain "BALANCE" 0x31 0];
         3 := [plain "ORIGIN" 0x32 0]]} {[7 := {[0 := 7]}]}) in
  match r with
  | (?final, _) =>
      exists final; split; [vm_compute; reflexivity|];
      split; [vm_compute; by eexists|];
      split; [vm_compute; by eexists|];
      split; [vm_compute; reflexivity|];
      apply (generate_evm_code_storage_raises (handle := gmap Z Z) ∅
               {[1 := three_jumpdests; 2 := [plain "BALANCE" 0x31 0];
                 3 := [plain "ORIGIN" 0x32 0]]} {[7 := {[0 := 7]}]} final);
      vm_compute; reflexivity
  end.
Defined.

(** ** Labels set by a compiled contract *)







